(** * Mapping dispatch and offset commits: a model of mapping3.py and mapping4.py

    The development embeds the engine client ([run_playbook],
    [AsyncOrenctlEngine.ingest]), the stream-coupled retry loop of
    [process_mappings_async] (mapping3.py), the pool-based retry loop of
    [process_single_mapping] and the executors of
    [optimize_mapping_processing] (mapping4.py), and proves properties of
    their results, of the offsets they commit and of the delays they
    insert. *)

From Stdlib Require Import QArith.
From stdpp Require Import gmap strings list fin_maps.

Local Open Scope Z_scope.

(** ** Python values *)

(** The events and tenant settings are Python dicts with string keys and
    JSON-like values. *)
#[warnings="-register-all"]
Inductive value : Type :=
  | VNone
  | VBool (b : bool)
  | VInt (z : Z)
  | VStr (s : string)
  | VDict (d : gmap string value).

(** Python's truth value of an object, as used by [if x:], [not x] and
    [x or y]. *)
Definition truthy (v : value) : bool :=
  match v with
  | VNone => false
  | VBool b => b
  | VInt z => negb (z =? 0)
  | VStr s => negb (String.eqb s "")
  | VDict d => negb (bool_decide (d = ∅))
  end.

(** [d.get(k)], with None as the default. *)
Definition dict_get (d : gmap string value) (k : string) : value :=
  default VNone (d !! k).

(** [d.get(k, dflt)]. *)
Definition dict_get_default (d : gmap string value) (k : string) (dflt : value) : value :=
  default dflt (d !! k).

(** ** Results and exceptions *)

(** [class Result(Enum)] of mapping3.py. *)
Inductive Result : Type :=
  | SUCCEED
  | INVALID_EVENT
  | ENGINE_INTERNAL_ERROR
  | ENGINE_CONNECTION_ERROR
  | TIMEOUT
  | UNDEFINED_ERROR.

#[global] Instance Result_eq_dec : EqDecision Result.
Proof. solve_decision. Defined.

(** The exceptions the code distinguishes. [OtherException] stands for any
    other subclass of [Exception]. *)
Inductive exn : Type :=
  | KeyError (k : string)
  | AttributeError
  | TypeError
  | ValueError
  | ClientConnectionError
  | AsyncTimeoutError
  | OtherException.

(** What a Python call does: it returns a value or raises. *)
Inductive completion (A : Type) : Type :=
  | Returns (a : A)
  | Raises (e : exn).
Arguments Returns {A} a.
Arguments Raises {A} e.

(** The set [result_for_retry] of [process_mappings_async], which is also
    the literal set tested in [process_single_mapping]. *)
Definition result_for_retry (r : Result) : bool :=
  match r with
  | ENGINE_INTERNAL_ERROR | ENGINE_CONNECTION_ERROR | TIMEOUT => true
  | _ => false
  end.

(** [res in result_for_retry] for a value that is a [Result] member or
    Python's None (a function that fell off its end). *)
Definition in_result_for_retry (res : option Result) : bool :=
  match res with
  | Some r => result_for_retry r
  | None => false
  end.

(** ** A writer-and-exception monad for the effects of the code *)

Inductive level : Type := INFO | WARNING | ERROR.

(** The URL of a request, kept structured: the f-string
    [f'{engine_api_uri}/{tenant_id}/engine/_run_playbook'] of [run_playbook]
    and the plain [self.ingest_api] of [ingest]. *)
Inductive url : Type :=
  | RunPlaybookUrl (engine_api_uri tenant_id : value)
  | IngestUrl (ingest_api : value).

(** A header value: [f"Bearer {access_token}"] or the object itself. *)
Inductive header : Type :=
  | Bearer (access_token : value)
  | Plain (v : value).

(** The arguments of one [session.post]. *)
Record request : Type := {
  req_url : url;
  req_json : value;
  req_headers : gmap string header;
  req_timeout : value
}.

(** What the code does to the outside world. [Dispatch i] marks the entry
    into the payload preparation and engine call of a retry loop on attempt
    [i]. *)
Inductive effect : Type :=
  | Dispatch (attempt_no : nat)
  | Post (r : request)
  | Log (l : level)
  | Commit (partition offset : option Z)
  | Sleep (seconds : Q).

(** A computation: the effects it performed, and how it ended. *)
Definition Py (A : Type) : Type := (list effect * completion A)%type.

Definition ret {A} (a : A) : Py A := ([], Returns a).
Definition raise {A} (e : exn) : Py A := ([], Raises e).
Definition emit (e : effect) : Py unit := ([e], Returns tt).
Definition bind {A B} (m : Py A) (k : A → Py B) : Py B :=
  match m with
  | (t, Returns a) => let '(t', c) := k a in (t ++ t', c)
  | (t, Raises e) => (t, Raises e)
  end.

(** [try: m  except Exception: handler]. *)
Definition try_except {A} (m : Py A) (handler : exn → Py A) : Py A :=
  match m with
  | (t, Returns a) => (t, Returns a)
  | (t, Raises e) => let '(t', c) := handler e in (t ++ t', c)
  end.

#[global] Instance Py_ret : MRet Py := @ret.
#[global] Instance Py_bind : MBind Py := λ A B k m, bind m k.

Definition effects {A} (m : Py A) : list effect := m.1.
Definition outcome {A} (m : Py A) : completion A := m.2.

(** The dispatch attempts made, the requests sent, the offsets committed and
    the delays slept, in order. *)
Definition dispatches (t : list effect) : list nat :=
  omap (λ e, match e with Dispatch i => Some i | _ => None end) t.
Definition posts (t : list effect) : list request :=
  omap (λ e, match e with Post r => Some r | _ => None end) t.
Definition commits (t : list effect) : list (option Z * option Z) :=
  omap (λ e, match e with Commit p o => Some (p, o) | _ => None end) t.
Definition sleeps (t : list effect) : list Q :=
  omap (λ e, match e with Sleep s => Some s | _ => None end) t.

(** ** EngineClient (mapping3.py) *)

(** One HTTP exchange as the client sees it: everything inside the two
    [async with] blocks up to the test of [res.status] either yields a
    status or raises. *)
Inductive http_outcome : Type :=
  | HttpStatus (status : Z)
  | HttpRaises (e : exn).

(** The [if res.status == 200 ... elif res.status == 500 ...] ladder and
    the [except] clauses shared by [ingest] (lines 68-79) and
    [run_playbook] (lines 141-152). A status that is neither 200 nor 500
    falls off the end of the function, which returns None. *)
Definition after_post (h : http_outcome) : Py (option Result) :=
  match h with
  | HttpStatus status =>
      emit (Log INFO);;
      if status =? 200 then mret (Some SUCCEED)
      else if status =? 500 then mret (Some ENGINE_INTERNAL_ERROR)
      else mret None
  | HttpRaises ClientConnectionError => mret (Some ENGINE_CONNECTION_ERROR)
  | HttpRaises AsyncTimeoutError => mret (Some TIMEOUT)
  | HttpRaises _ => emit (Log ERROR);; mret (Some UNDEFINED_ERROR)
  end.

Record AsyncOrenctlEngine : Type := {
  ingest_api : value;
  headers : gmap string header
}.

(** [AsyncOrenctlEngine.__init__]. *)
Definition new_engine (ingest_api access_token api_key : value) : AsyncOrenctlEngine :=
  let h0 : gmap string header := ∅ in
  let h1 := if truthy access_token then <["Authorization" := Bearer access_token]> h0 else h0 in
  let h2 := if truthy api_key then <["X-API-KEY" := Plain api_key]> h1 else h1 in
  {| ingest_api := ingest_api; headers := h2 |}.

Section EngineClient.
(** The downstream engine: what the exchange started by a request
    yields. *)
Variable net : request → http_outcome.

(** [AsyncOrenctlEngine.ingest]. *)
Definition ingest (self : AsyncOrenctlEngine) (payload : value)
    (tenant_info : gmap string value) (tenant : value) : Py (option Result) :=
  let hs := if truthy tenant then <["Tenant" := Plain tenant]> (headers self)
            else headers self in
  let r := {| req_url := IngestUrl (ingest_api self);
              req_json := payload;
              req_headers := hs;
              req_timeout := dict_get_default tenant_info "request_timeout" (VInt 30) |} in
  emit (Post r);;
  after_post (net r).

(** [obj.get(k)] on an arbitrary object: only a dict has the method. *)
Definition attr_get (obj : value) (k : string) : Py value :=
  match obj with
  | VDict d => mret (dict_get d k)
  | _ => raise AttributeError
  end.

(** [d[k]]. *)
Definition subscript (d : gmap string value) (k : string) : Py value :=
  match d !! k with
  | Some v => mret v
  | None => raise (KeyError k)
  end.

(** [x or obj.get(k)]: the right operand is evaluated only when [x] is
    false. *)
Definition or_get (x obj : value) (k : string) : Py value :=
  if truthy x then mret x else attr_get obj k.

(** The request of [run_playbook]: [body] (lines 117-119) posted to
    [uri] with the tenant's timeout. [body["input_event"]] is the event
    object itself, as it stands when the request is sent. *)
Definition playbook_request (uri : url) (playbook_id config_id : value)
    (event tenant_info : gmap string value) : request :=
  let body0 : gmap string value :=
    <["input_event" := VDict event]> {["playbook_id" := playbook_id]} in
  let body := if truthy config_id then <["config_id" := config_id]> body0
              else body0 in
  {| req_url := uri;
     req_json := VDict body;
     req_headers := ∅;
     req_timeout := dict_get_default tenant_info "request_timeout" (VInt 30) |}.

(** [run_playbook]. The event is a shared mutable dict: the function
    returns it as it stands afterwards, next to the effects and the
    result. *)
Definition run_playbook (event tenant_info : gmap string value)
    (playbook_id config_id extra_info : value)
  : gmap string value * Py (option Result) :=
  let resolved : Py (url * value * value) :=
    dflt ← subscript tenant_info "tenant_id";
    let tenant_id := dict_get_default event "tenant" dflt in
    base ← subscript tenant_info "engine_api_uri";
    let uri := RunPlaybookUrl base tenant_id in
    let data := dict_get event "data" in
    if truthy data then
      p ← or_get playbook_id data "playbook_id";
      c ← or_get config_id data "config_id";
      mret (uri, p, c)
    else mret (uri, playbook_id, config_id) in
  match resolved with
  | (t, Raises e) => (event, (t, Raises e))
  | (t, Returns (uri, playbook_id, config_id)) =>
      if negb (truthy playbook_id) then
        (event, emit (Log ERROR);; mret (Some INVALID_EVENT))
      else
        let event' := <["extra_info" := extra_info]> event in
        let r := playbook_request uri playbook_id config_id event' tenant_info in
        (event', emit (Post r);; after_post (net r))
  end.
End EngineClient.

(** ** Dispatcher, stream-coupled path: [process_mappings_async] (mapping3.py) *)

(** [max_retries = 3], set at the top of each mapping's loop in mapping3.py
    and at the top of [process_single_mapping] in mapping4.py. *)
Definition max_retries : nat := 3.

(** Truth value of an [Optional[float]]: None and 0.0 are false. *)
Definition truthy_float (x : option Q) : bool :=
  match x with
  | Some q => negb (Qeq_bool q 0)
  | None => false
  end.

(** [a < b] on numbers. *)
Definition Qltb (a b : Q) : bool := negb (Qle_bool b a).

(** Lifting of a finished call into a computation. *)
Definition lift {A} (c : completion A) : Py A := ([], c).

Section StreamLoop.
(** What lines 198-220 (payload preparation and the call of the engine
    client) yield on the pass that starts with [retry_count = i]. *)
Variable attempt : nat → completion (option Result).
(** The [kafka_client] argument: None when it is not passed, otherwise
    the client, of which [raises i] tells whether the [_commit] call made
    on pass [i] raises. *)
Variable kafka_client : option (nat → bool).
Variables partition offset : option Z.
Variable time_commit : option Q.
(** [time.time()], in seconds, as read on pass [i]. *)
Variable time_time : nat → Q.

(** [kafka_client._commit({p: o})] on pass [i]. *)
Definition kafka_commit (i : nat) (p o : option Z) : Py unit :=
  match kafka_client with
  | None => raise AttributeError
  | Some raises =>
      emit (Commit p o);;
      if raises i then raise OtherException else mret tt
  end.

(** [offset + 1]. *)
Definition offset_plus_one : Py (option Z) :=
  match offset with
  | Some o => mret (Some (o + 1))
  | None => raise TypeError
  end.

(** [time_commit - time.time() * 1000 if time_commit else 0]. *)
Definition timeleft (i : nat) : Q :=
  match time_commit with
  | Some tc => if truthy_float time_commit then (tc - time_time i * 1000)%Q else 0%Q
  | None => 0%Q
  end.

(** One pass through the body of the [while] loop (lines 197-254),
    started with [next_condition = False] and the given [retry_count];
    it yields the new values of both variables. *)
Definition pass (retry_count : nat) : Py (bool * nat) :=
  try_except
    (emit (Dispatch retry_count);;
     res ← lift (attempt retry_count);
     if in_result_for_retry res then
       emit (Log ERROR);;
       emit (Log ERROR);;
       match kafka_client with
       | Some _ => kafka_commit retry_count partition offset
       | None => mret tt
       end;;
       emit (Sleep 1);;
       mret (false, S retry_count)
     else
       (if Qltb (timeleft retry_count) 1.5 then
          emit (Log INFO);;
          next ← offset_plus_one;
          emit (Log INFO);;
          try_except (kafka_commit retry_count partition next)
                     (λ _, emit (Log ERROR);; emit (Sleep 10))
        else mret tt);;
       mret (true, retry_count))
    (λ _, emit (Log ERROR);; emit (Sleep 1);; mret (false, S retry_count)).

(** [while not next_condition and retry_count < max_retries]. The loop
    has no bound of its own in the source; [fuel] bounds the number of
    passes of the model, and [while_loop_fuel] shows that [max_retries]
    passes always suffice. *)
Fixpoint while_loop (fuel : nat) (next_condition : bool) (retry_count : nat)
  : Py (option (bool * nat)) :=
  if negb next_condition && (retry_count <? max_retries)%nat then
    match fuel with
    | O => mret None
    | S fuel' =>
        st ← pass retry_count;
        while_loop fuel' st.1 st.2
    end
  else mret (Some (next_condition, retry_count)).

(** The body of the [for mapping in matched_mappings] loop for one
    mapping (lines 192-256). *)
Definition process_mapping : Py (option (bool * nat)) :=
  st ← while_loop max_retries false 0;
  emit (Log INFO);;
  mret st.
End StreamLoop.

(** The behaviour of the outside world during the loop of one mapping: the
    outcome of each dispatch attempt, whether the commit made on each pass
    raises, and the clock. *)
Record mapping_run : Type := {
  attempts : nat → completion (option Result);
  commit_raises : nat → bool;
  clock : nat → Q
}.

(** [process_mappings_async]: the loop of each mapping in turn (lines
    191-256). [has_client] tells whether a [kafka_client] was passed. The
    function returns None whatever happened. *)
Fixpoint process_mappings_async (matched_mappings : list mapping_run) (has_client : bool)
    (partition offset : option Z) (time_commit : option Q) : Py unit :=
  match matched_mappings with
  | [] => mret tt
  | m :: rest =>
      process_mapping (attempts m)
        (if has_client then Some (commit_raises m) else None)
        partition offset time_commit (clock m);;
      process_mappings_async rest has_client partition offset time_commit
  end.

(** ** Dispatcher, pool-based path: [process_single_mapping] (mapping4.py) *)

Section PoolTask.
(** What lines 148-171 (payload preparation and the call of the engine
    client) yield on the given attempt. *)
Variable attempt : nat → completion (option Result).

(** The body of the [for attempt in range(max_retries)] loop. It yields
    [Some res] when the function returns [res] from inside the loop and
    None when the loop goes on. *)
Definition try_once (attempt_no : nat) : Py (option (option Result)) :=
  try_except
    (emit (Dispatch attempt_no);;
     res ← lift (attempt attempt_no);
     if negb (in_result_for_retry res) then mret (Some res)
     else
       emit (Log WARNING);;
       emit (Sleep (inject_Z (2 ^ Z.of_nat attempt_no)));;
       mret None)
    (λ _, emit (Log ERROR);; mret None).

Fixpoint for_attempts (attempts : list nat) : Py (option Result) :=
  match attempts with
  | [] => mret (Some UNDEFINED_ERROR)
  | a :: rest =>
      r ← try_once a;
      match r with
      | Some res => mret res
      | None => for_attempts rest
      end
  end.

(** [process_single_mapping]. *)
Definition process_single_mapping : Py (option Result) :=
  for_attempts (seq 0 max_retries).
End PoolTask.

(** ** ConcurrencyController: the executors of mapping4.py *)

(** A task is one [process_single_mapping] call; it is identified with the
    behaviour of the engine on each of its attempts. *)
Definition task : Type := nat → completion (option Result).

(** [future.result()] of a finished task. *)
Definition future_result (t : task) : completion (option Result) :=
  outcome (process_single_mapping t).

(** [range(0, stop, step)] for a positive step. *)
Definition range_by (stop step : nat) : list nat :=
  (λ k, k * step)%nat <$> seq 0 ((stop + step - 1) `div` step)%nat.

(** [[l[i:i+n] for i in range(0, len(l), n)]] for a positive [n]. *)
Definition slices {A} (n : nat) (l : list A) : list (list A) :=
  (λ i, take n (drop i l)) <$> range_by (length l) n.

(** The batches of [process_mapping_with_rate_limit]: [range] raises
    ValueError for a zero step and is empty for a negative one. *)
Definition rate_limit_batches {A} (max_concurrent : Z) (l : list A)
  : completion (list (list A)) :=
  if max_concurrent =? 0 then Raises ValueError
  else if max_concurrent <? 0 then Returns []
  else Returns (slices (Z.to_nat max_concurrent) l).

(** The state of an executor run: the batches not yet submitted, the pool
    of the [with] block that is open (its queue and the tasks being run by
    its workers), the [results] list and what the collecting loop has
    logged and slept. *)
Record exec_state : Type := {
  waiting : list (list task);
  pool : option (list task * list task);
  results : list (option Result);
  exec_log : list effect
}.

(** The [try: result = future.result(); results.append(result)
    except Exception: logging.error(...)] of the collecting loops. *)
Definition collect (c : completion (option Result)) (rs : list (option Result))
  : list (option Result) * list effect :=
  match c with
  | Returns r => (rs ++ [r], [])
  | Raises _ => (rs, [Log ERROR])
  end.

(** The steps of a run with pools of [workers] threads. [pause] is what
    follows each [with] block: nothing in [process_mapping_with_threads],
    [time.sleep(min_interval)] in [process_mapping_with_rate_limit]. A
    pool takes queued tasks in submission order and starts one only while
    a worker is idle; running tasks finish in any order, and a finished
    future is collected at once; a [with] block is left when its pool has
    drained. *)
Inductive exec_step (workers : nat) (pause : list effect) : exec_state → exec_state → Prop :=
  | step_open b w rs lg :
      exec_step workers pause
        {| waiting := b :: w; pool := None; results := rs; exec_log := lg |}
        {| waiting := w; pool := Some (b, []); results := rs; exec_log := lg |}
  | step_start w t q run rs lg :
      (length run < workers)%nat →
      exec_step workers pause
        {| waiting := w; pool := Some (t :: q, run); results := rs; exec_log := lg |}
        {| waiting := w; pool := Some (q, run ++ [t]); results := rs; exec_log := lg |}
  | step_done w q run1 t run2 rs lg :
      exec_step workers pause
        {| waiting := w; pool := Some (q, run1 ++ t :: run2); results := rs; exec_log := lg |}
        {| waiting := w; pool := Some (q, run1 ++ run2);
           results := (collect (future_result t) rs).1;
           exec_log := lg ++ (collect (future_result t) rs).2 |}
  | step_close w rs lg :
      exec_step workers pause
        {| waiting := w; pool := Some ([], []); results := rs; exec_log := lg |}
        {| waiting := w; pool := None; results := rs; exec_log := lg ++ pause |}.

(** A run is over when every batch has been submitted and no [with] block
    is open; the function then returns [results]. *)
Definition finished (s : exec_state) : Prop :=
  waiting s = [] ∧ pool s = None.

(** The number of dispatch calls in flight. *)
Definition in_flight (s : exec_state) : nat :=
  match pool s with
  | Some (_, run) => length run
  | None => 0
  end.

Definition start_state (batches : list (list task)) : exec_state :=
  {| waiting := batches; pool := None; results := []; exec_log := [] |}.

(** [ThreadPoolExecutor(max_workers=n)]: the constructor raises ValueError
    for [n <= 0]; for None the library picks its own default. *)
Definition pool_workers (default_workers : nat) (max_workers : option Z) : completion nat :=
  match max_workers with
  | None => Returns default_workers
  | Some n => if n <=? 0 then Raises ValueError else Returns (Z.to_nat n)
  end.

(** [process_mapping_with_threads(max_workers)]: one pool, to which every
    mapping is submitted. The proposition holds of the states [s] that a
    call can reach; when [s] is [finished] the call returns [results s]. *)
Definition process_mapping_with_threads (default_workers : nat) (max_workers : option Z)
    (matched_mappings : list task) (s : exec_state) : Prop :=
  ∃ workers, pool_workers default_workers max_workers = Returns workers ∧
    rtc (exec_step workers []) (start_state [matched_mappings]) s.

(** [process_mapping_with_rate_limit(max_concurrent, min_interval)]: one
    pool of [max_concurrent] workers per batch of [max_concurrent]
    mappings, and a pause after each. *)
Definition process_mapping_with_rate_limit (max_concurrent : Z) (min_interval : Q)
    (matched_mappings : list task) (s : exec_state) : Prop :=
  ∃ batches, rate_limit_batches max_concurrent matched_mappings = Returns batches ∧
    rtc (exec_step (Z.to_nat max_concurrent) [Sleep min_interval])
        (start_state batches) s.

(** The value a task hands to the collecting loop. *)
Definition task_result (t : task) : option Result :=
  match future_result t with
  | Returns r => r
  | Raises _ => None
  end.

(** The tasks of a run that have not finished yet: those running, those
    queued and those of the batches still waiting. *)
Definition unfinished (s : exec_state) : list task :=
  match pool s with
  | Some (q, run) => run ++ q
  | None => []
  end ++ concat (waiting s).

(** A task whose every dispatch attempt raises. *)
Definition always_raises (t : task) : Prop := ∀ a, ∃ e, t a = Raises e.

(** ** Conditions and laws named by the specification *)

(** No playbook id resolves: the argument is false, and [event["data"]] is
    absent, false, or a dict whose ["playbook_id"] is absent or false. *)
Definition playbook_id_unresolved (event : gmap string value) (playbook_id : value) : bool :=
  negb (truthy playbook_id) &&
  match event !! "data" with
  | Some (VDict d) => negb (truthy (dict_get d "playbook_id"))
  | Some v => negb (truthy v)
  | None => true
  end.

(** The retry law of the specification: [delay = max(1, 2^attempt)]. *)
Definition backoff_law (attempt_no : nat) : Q :=
  inject_Z (Z.max 1 (2 ^ Z.of_nat attempt_no)).

(** The outcome sequence [first; second; third; ...] of a retry loop, all
    later attempts behaving like the third. *)
Definition script3 (first second third : completion (option Result))
  : nat → completion (option Result) :=
  λ i, match i with
       | O => first
       | S O => second
       | _ => third
       end.

(** How a call of [run_playbook] can go: it raises before touching the
    event, or gives up on a missing playbook id, or stores [extra_info] in
    the event and posts one request. *)
Inductive run_playbook_case (net : request → http_outcome)
    (event : gmap string value) (extra_info : value)
  : gmap string value * Py (option Result) → Prop :=
  | rp_raises e :
      run_playbook_case net event extra_info (event, ([], Raises e))
  | rp_invalid :
      run_playbook_case net event extra_info
        (event, ([Log ERROR], Returns (Some INVALID_EVENT)))
  | rp_posts r body t c :
      req_json r = VDict body →
      body !! "input_event" = Some (VDict (<["extra_info" := extra_info]> event)) →
      posts t = [] →
      after_post (net r) = (t, c) →
      run_playbook_case net event extra_info
        (<["extra_info" := extra_info]> event, (Post r :: t, c)).

(** ** Sample inputs *)

(** The event [{"tenant": "t1", "data": {"playbook_id": "pb-1"}}]. *)
Definition sample_event : gmap string value :=
  {[ "tenant" := VStr "t1"; "data" := VDict {[ "playbook_id" := VStr "pb-1" ]} ]}.

(** The same event without a playbook id: [{"tenant": "t1", "data": {"severity": 3}}]. *)
Definition sample_event_no_playbook : gmap string value :=
  {[ "tenant" := VStr "t1"; "data" := VDict {[ "severity" := VInt 3 ]} ]}.

Definition sample_tenant_info : gmap string value :=
  {[ "tenant_id" := VStr "t1"; "engine_api_uri" := VStr "http://engine";
     "ingest_api" := VStr "http://ingest"; "api_key" := VStr "k" ]}.

(** Fifty tasks whose first attempt succeeds, and the state of the
    rate-limited executor once the first batch of five is running. *)
Definition sample_tasks : list task := replicate 50 (λ _, Returns (Some SUCCEED)).

Definition sample_busy_state : exec_state :=
  {| waiting := drop 1 (slices 5 sample_tasks);
     pool := Some ([], take 5 sample_tasks);
     results := [];
     exec_log := [] |}.

(** A task whose every attempt raises, and one that succeeds at once. *)
Definition failing_task : task := λ _, Raises OtherException.
Definition succeeding_task : task := λ _, Returns (Some SUCCEED).

(** An engine that answers every request with the given status. *)
Definition always_status (status : Z) : request → http_outcome :=
  λ _, HttpStatus status.

(** ** Further notions used in the properties below *)

(** An attempt that makes a retry loop go on: it raised, or it returned a
    retryable result. *)
Definition failing (c : completion (option Result)) : bool :=
  match c with
  | Returns res => in_result_for_retry res
  | Raises _ => true
  end.

(** The time slept in all, in seconds. *)
Definition total_sleep (t : list effect) : Q := foldr Qplus 0%Q (sleeps t).

(** A non-retryable result replaced by SUCCEED; retryable results and
    exceptions are kept. *)
Definition as_success (c : completion (option Result)) : completion (option Result) :=
  match c with
  | Returns res => if in_result_for_retry res then c else Returns (Some SUCCEED)
  | Raises _ => c
  end.

(** The delay that follows attempt [a] in [process_single_mapping]:
    [2 ** a] seconds after a retryable result, none otherwise. *)
Definition delay_after (attempt : nat → completion (option Result)) (a : nat) : option Q :=
  match attempt a with
  | Returns res =>
      if in_result_for_retry res then Some (inject_Z (2 ^ Z.of_nat a)) else None
  | Raises _ => None
  end.

(** ** The other executors of mapping4.py *)

(** [process_mapping_in_batches(batch_size)]: the mappings are cut into
    batches by the same [range] and slices as in
    [process_mapping_with_rate_limit]; each batch gets a pool of its own,
    built by [ThreadPoolExecutor()] with the library's default number of
    workers, and nothing is slept between batches. The proposition holds
    of the states a call can reach. *)
Definition process_mapping_in_batches (default_workers : nat) (batch_size : Z)
    (matched_mappings : list task) (s : exec_state) : Prop :=
  ∃ batches, rate_limit_batches batch_size matched_mappings = Returns batches ∧
    rtc (exec_step default_workers []) (start_state batches) s.

(** [multiprocessing.Pool(processes=max_processes)] after
    [if max_processes is None: max_processes = multiprocessing.cpu_count()]:
    the constructor raises ValueError for fewer than one process. *)
Definition pool_processes (cpu_count : nat) (max_processes : option Z) : completion nat :=
  let n := match max_processes with
           | None => Z.of_nat cpu_count
           | Some n => n
           end in
  if n <? 1 then Raises ValueError else Returns (Z.to_nat n).

(** [pool.starmap(process_single_mapping, ...)]: the results of the calls
    in the order of the arguments; a call that raised makes [starmap]
    raise. *)
Fixpoint starmap (tasks : list task) : completion (list (option Result)) :=
  match tasks with
  | [] => Returns []
  | t :: rest =>
      match future_result t with
      | Raises e => Raises e
      | Returns r =>
          match starmap rest with
          | Returns rs => Returns (r :: rs)
          | Raises e => Raises e
          end
      end
  end.

(** [process_mapping_with_multiprocessing(max_processes)]. *)
Definition process_mapping_with_multiprocessing (cpu_count : nat)
    (max_processes : option Z) (matched_mappings : list task)
  : completion (list (option Result)) :=
  match pool_processes cpu_count max_processes with
  | Raises e => Raises e
  | Returns _ => starmap matched_mappings
  end.

(** The tenant settings as the specification lists them, with no
    ["tenant_id"]: [ingest_api], [engine_api_uri], [access_token],
    [api_key] and [request_timeout]. *)
Definition listed_tenant_info : gmap string value :=
  {[ "ingest_api" := VStr "http://ingest"; "engine_api_uri" := VStr "http://engine";
     "access_token" := VStr "token"; "api_key" := VStr "k";
     "request_timeout" := VInt 30 ]}.

(** ** Tactics *)

Ltac py_unfold :=
  unfold mbind, mret, Py_bind, Py_ret, bind, ret, raise, emit, lift, try_except,
    effects, outcome in *.

Ltac py_simpl := py_unfold; cbn [fst snd app] in *.

(** Linear arithmetic knowing the value of [max_retries]. *)
Ltac retries_lia := pose proof (eq_refl : max_retries = 3%nat); lia.

(** ** Effects of a sequence *)

Lemma dispatches_app t1 t2 : dispatches (t1 ++ t2) = dispatches t1 ++ dispatches t2.
Proof. apply omap_app. Qed.

Lemma commits_app t1 t2 : commits (t1 ++ t2) = commits t1 ++ commits t2.
Proof. apply omap_app. Qed.

Lemma sleeps_app t1 t2 : sleeps (t1 ++ t2) = sleeps t1 ++ sleeps t2.
Proof. apply omap_app. Qed.

(** ** EngineClient *)

Section EngineClientFacts.
Variable net : request → http_outcome.

Lemma after_post_classification :
  outcome (after_post (HttpStatus 200)) = Returns (Some SUCCEED) ∧
  outcome (after_post (HttpStatus 500)) = Returns (Some ENGINE_INTERNAL_ERROR) ∧
  outcome (after_post (HttpRaises ClientConnectionError))
    = Returns (Some ENGINE_CONNECTION_ERROR) ∧
  outcome (after_post (HttpRaises AsyncTimeoutError)) = Returns (Some TIMEOUT) ∧
  (∀ e, e ≠ ClientConnectionError → e ≠ AsyncTimeoutError →
        outcome (after_post (HttpRaises e)) = Returns (Some UNDEFINED_ERROR)).
Proof.
  repeat split; try reflexivity.
  intros e H1 H2. destruct e; try reflexivity; congruence.
Qed.

Lemma after_post_other_status status :
  status ≠ 200 → status ≠ 500 → outcome (after_post (HttpStatus status)) = Returns None.
Proof.
  intros H2 H5. unfold after_post.
  destruct (Z.eqb_spec status 200) as [|_]; [done|].
  destruct (Z.eqb_spec status 500) as [|_]; [done|].
  reflexivity.
Qed.

Lemma after_post_never_raises h : ∃ r, outcome (after_post h) = Returns r.
Proof.
  destruct h as [status|e]; unfold after_post.
  - destruct (status =? 200); [|destruct (status =? 500)]; eauto.
  - destruct e; eauto.
Qed.

Lemma after_post_no_posts h : posts (effects (after_post h)) = [].
Proof.
  destruct h as [status|e]; unfold after_post.
  - destruct (status =? 200); [|destruct (status =? 500)]; reflexivity.
  - destruct e; reflexivity.
Qed.

Lemma ingest_outcome self payload tenant_info tenant :
  ∃ r, posts (effects (ingest net self payload tenant_info tenant)) = [r] ∧
       outcome (ingest net self payload tenant_info tenant) = outcome (after_post (net r)).
Proof.
  unfold ingest. eexists. split.
  - py_simpl. destruct (after_post _) as [t c] eqn:E. cbn.
    pose proof (after_post_no_posts (net
      {| req_url := IngestUrl (ingest_api self); req_json := payload;
         req_headers := if truthy tenant then <["Tenant":=Plain tenant]> (headers self)
                        else headers self;
         req_timeout := dict_get_default tenant_info "request_timeout" (VInt 30) |})) as Hp.
    rewrite E in Hp. cbn in Hp. unfold posts in *. cbn. rewrite Hp. reflexivity.
  - py_simpl. destruct (after_post _) as [t c]. reflexivity.
Qed.
End EngineClientFacts.

Section RunPlaybookFacts.
Variable net : request → http_outcome.

Lemma run_playbook_cases event tenant_info playbook_id config_id extra_info :
  run_playbook_case net event extra_info
    (run_playbook net event tenant_info playbook_id config_id extra_info).
Proof.
  unfold run_playbook, subscript, or_get, attr_get.
  destruct (tenant_info !! "tenant_id") as [dflt|]; [|apply rp_raises].
  destruct (tenant_info !! "engine_api_uri") as [base|]; [|apply rp_raises].
  assert (Hsend : ∀ uri p c,
    run_playbook_case net event extra_info
      (if negb (truthy p)
       then (event, emit (Log ERROR);; mret (Some INVALID_EVENT))
       else
         (<["extra_info" := extra_info]> event,
          emit (Post (playbook_request uri p c
                        (<["extra_info" := extra_info]> event) tenant_info));;
          after_post (net (playbook_request uri p c
                        (<["extra_info" := extra_info]> event) tenant_info))))).
  { intros uri p c. destruct (truthy p); cbn [negb]; [|apply rp_invalid].
    py_simpl. destruct (after_post _) as [t c'] eqn:E.
    eapply rp_posts; [reflexivity| | |exact E].
    - unfold playbook_request; cbn. destruct (truthy c).
      + rewrite lookup_insert_ne by done. apply lookup_insert_eq.
      + apply lookup_insert_eq.
    - pose proof (after_post_no_posts (net (playbook_request uri p c
        (<["extra_info" := extra_info]> event) tenant_info))) as Hp.
      rewrite E in Hp. exact Hp. }
  py_simpl.
  destruct (truthy (dict_get event "data")) eqn:Hdata; [|apply Hsend].
  destruct (truthy playbook_id) eqn:Hp.
  - destruct (truthy config_id) eqn:Hc.
    + cbn. apply (Hsend _ playbook_id config_id).
    + destruct (dict_get event "data"); cbn; try apply rp_raises.
      apply (Hsend _ playbook_id).
  - destruct (dict_get event "data") as [| | | |d]; cbn; try apply rp_raises.
    destruct (truthy config_id) eqn:Hc; cbn; apply Hsend.
Qed.
End RunPlaybookFacts.

(** With tenant settings that carry the two keys the function subscripts
    before it resolves the id, a call for which no playbook id resolves
    (the [playbook_id] argument is false and [event["data"]] carries none)
    returns INVALID_EVENT, sends no request and leaves the event as it
    was. *)
Theorem run_playbook_unresolved_is_invalid_event
    (net : request → http_outcome) (event tenant_info : gmap string value)
    (playbook_id config_id extra_info : value) :
  is_Some (tenant_info !! "tenant_id") →
  is_Some (tenant_info !! "engine_api_uri") →
  playbook_id_unresolved event playbook_id = true →
  let run := run_playbook net event tenant_info playbook_id config_id extra_info in
  outcome run.2 = Returns (Some INVALID_EVENT) ∧
  posts (effects run.2) = [] ∧
  run.1 = event.
Proof.
  intros [dflt Ht] [base Hb] Hun.
  unfold playbook_id_unresolved in Hun.
  apply andb_true_iff in Hun as [Hp Hd].
  apply negb_true_iff in Hp.
  cbn zeta. unfold run_playbook, subscript, or_get, attr_get.
  rewrite Ht, Hb. py_simpl.
  assert (Hdata : dict_get event "data" = default VNone (event !! "data")) by done.
  rewrite !Hdata. clear Hdata.
  destruct (event !! "data") as [data|]; cbn [default from_option id].
  - destruct (truthy data) eqn:Htd.
    + destruct data as [| b | z | s | d]; try (cbn in Hd; congruence).
      apply negb_true_iff in Hd. rewrite Hp.
      destruct (truthy config_id); cbn; rewrite Hd; cbn; done.
    + rewrite Hp. cbn. done.
  - cbn. rewrite Hp. cbn. done.
Qed.

Lemma run_playbook_unresolved_witness :
  outcome (run_playbook (always_status 200) sample_event_no_playbook sample_tenant_info
             VNone VNone VNone).2 = Returns (Some INVALID_EVENT) ∧
  posts (effects (run_playbook (always_status 200) sample_event_no_playbook
                    sample_tenant_info VNone VNone VNone).2) = [] ∧
  (run_playbook (always_status 200) sample_event_no_playbook sample_tenant_info
     VNone VNone VNone).1 = sample_event_no_playbook.
Proof.
  apply (run_playbook_unresolved_is_invalid_event (always_status 200)
           sample_event_no_playbook sample_tenant_info VNone VNone VNone).
  - exists (VStr "t1"). vm_compute. reflexivity.
  - exists (VStr "http://engine"). vm_compute. reflexivity.
  - vm_compute. reflexivity.
Defined.

(** C10. [run_playbook] changes the event at the key ["extra_info"] only:
    every other key keeps its value on every path, and whenever a request
    is sent the event already holds the [extra_info] argument (None
    included) under that key, and the request body carries that event. *)
Theorem run_playbook_frame
    (net : request → http_outcome) (event tenant_info : gmap string value)
    (playbook_id config_id extra_info : value) (k : string) :
  k ≠ "extra_info" →
  let run := run_playbook net event tenant_info playbook_id config_id extra_info in
  run.1 !! k = event !! k ∧
  (∀ r, r ∈ posts (effects run.2) →
        run.1 !! "extra_info" = Some extra_info ∧
        ∃ body, req_json r = VDict body ∧ body !! "input_event" = Some (VDict run.1)).
Proof.
  intros Hk. cbn zeta.
  destruct (run_playbook_cases net event tenant_info playbook_id config_id extra_info)
    as [e| |r body t c Hj Hb Hp Ha]; cbn [fst snd effects].
  - split; [done|]. intros r Hr. cbn in Hr. by apply elem_of_nil in Hr.
  - split; [done|]. intros r Hr. cbn in Hr. by apply elem_of_nil in Hr.
  - split; [by rewrite lookup_insert_ne|].
    intros r' Hr. unfold posts in Hr, Hp. cbn in Hr. rewrite Hp in Hr.
    apply list_elem_of_singleton in Hr as ->.
    split; [apply lookup_insert_eq|]. by exists body.
Qed.

Lemma run_playbook_frame_witness :
  (run_playbook (always_status 200) sample_event sample_tenant_info
     VNone VNone VNone).1 !! "tenant" = sample_event !! "tenant" ∧
  (∀ r, r ∈ posts (effects (run_playbook (always_status 200) sample_event
                              sample_tenant_info VNone VNone VNone).2) →
        (run_playbook (always_status 200) sample_event sample_tenant_info
           VNone VNone VNone).1 !! "extra_info" = Some VNone ∧
        ∃ body, req_json r = VDict body ∧
                body !! "input_event"
                = Some (VDict (run_playbook (always_status 200) sample_event
                                 sample_tenant_info VNone VNone VNone).1)).
Proof.
  apply (run_playbook_frame (always_status 200) sample_event sample_tenant_info
           VNone VNone VNone "tenant").
  discriminate.
Defined.

(** C6. The classification of an exchange is 200 to SUCCEED, 500 to
    ENGINE_INTERNAL_ERROR, a connection failure to ENGINE_CONNECTION_ERROR,
    a timeout to TIMEOUT and any other exception to UNDEFINED_ERROR; but a
    status such as 404 has no result: both clients fall off their end and
    return None. *)
Theorem unmapped_status_returns_None :
  (∀ self payload tenant_info tenant,
     outcome (ingest (always_status 404) self payload tenant_info tenant) = Returns None) ∧
  outcome (run_playbook (always_status 404) sample_event sample_tenant_info
             VNone VNone VNone).2 = Returns None.
Proof.
  split.
  - intros self payload tenant_info tenant.
    destruct (ingest_outcome (always_status 404) self payload tenant_info tenant)
      as (r & _ & ->).
    reflexivity.
  - vm_compute. reflexivity.
Qed.

(** ** The stream-coupled retry loop *)

Section StreamLoopFacts.
Variable attempt : nat → completion (option Result).
Variable kafka_client : option (nat → bool).
Variables partition offset : option Z.
Variable time_commit : option Q.
Variable time_time : nat → Q.

Local Abbreviation pass_ :=
  (pass attempt kafka_client partition offset time_commit time_time).
Local Abbreviation while_loop_ :=
  (while_loop attempt kafka_client partition offset time_commit time_time).
Local Abbreviation process_mapping_ :=
  (process_mapping attempt kafka_client partition offset time_commit time_time).
Local Abbreviation timeleft_ := (timeleft time_commit time_time).

(** A pass whose dispatch raised: the general handler counts a retry. *)
Lemma pass_raised i e :
  attempt i = Raises e →
  pass_ i = ([Dispatch i; Log ERROR; Sleep 1], Returns (false, S i)).
Proof. intros H. unfold pass. py_simpl. rewrite H. reflexivity. Qed.

(** A pass whose dispatch gave a retryable result. *)
Lemma pass_retryable i res :
  attempt i = Returns res → in_result_for_retry res = true →
  pass_ i =
    match kafka_client with
    | None => ([Dispatch i; Log ERROR; Log ERROR; Sleep 1], Returns (false, S i))
    | Some raises =>
        if raises i
        then ([Dispatch i; Log ERROR; Log ERROR; Commit partition offset;
               Log ERROR; Sleep 1], Returns (false, S i))
        else ([Dispatch i; Log ERROR; Log ERROR; Commit partition offset; Sleep 1],
              Returns (false, S i))
    end.
Proof.
  intros H Hr. unfold pass, kafka_commit. py_simpl. rewrite H, Hr.
  destruct kafka_client as [raises|]; [|reflexivity].
  destruct (raises i); reflexivity.
Qed.

(** A pass whose dispatch gave any other result, with time to spare. *)
Lemma pass_terminal_deferred i res :
  attempt i = Returns res → in_result_for_retry res = false →
  Qltb (timeleft_ i) 1.5 = false →
  pass_ i = ([Dispatch i], Returns (true, i)).
Proof.
  intros H Hr Ht. unfold pass. py_simpl. rewrite H, Hr, Ht. reflexivity.
Qed.

(** A pass whose dispatch gave any other result, close to the deadline. *)
Lemma pass_terminal_urgent i res :
  attempt i = Returns res → in_result_for_retry res = false →
  Qltb (timeleft_ i) 1.5 = true →
  pass_ i =
    match offset, kafka_client with
    | None, _ => ([Dispatch i; Log INFO; Log ERROR; Sleep 1], Returns (false, S i))
    | Some o, None =>
        ([Dispatch i; Log INFO; Log INFO; Log ERROR; Sleep 10], Returns (true, i))
    | Some o, Some raises =>
        if raises i
        then ([Dispatch i; Log INFO; Log INFO; Commit partition (Some (o + 1));
               Log ERROR; Sleep 10], Returns (true, i))
        else ([Dispatch i; Log INFO; Log INFO; Commit partition (Some (o + 1))],
              Returns (true, i))
    end.
Proof.
  intros H Hr Ht. unfold pass, kafka_commit, offset_plus_one. py_simpl.
  rewrite H, Hr, Ht.
  destruct offset as [o|]; [|reflexivity].
  destruct kafka_client as [raises|]; [|reflexivity].
  destruct (raises i); reflexivity.
Qed.

(** Every pass makes one dispatch attempt, does not raise, and either
    ends the loop or counts one retry. *)
Lemma pass_step i :
  dispatches (effects (pass_ i)) = [i] ∧
  (outcome (pass_ i) = Returns (true, i) ∨ outcome (pass_ i) = Returns (false, S i)).
Proof.
  destruct (attempt i) as [res|e] eqn:H.
  - destruct (in_result_for_retry res) eqn:Hr.
    + rewrite (pass_retryable i res H Hr).
      destruct kafka_client as [raises|]; [destruct (raises i)|]; cbn; auto.
    + destruct (Qltb (timeleft_ i) 1.5) eqn:Ht.
      * rewrite (pass_terminal_urgent i res H Hr Ht).
        destruct offset; [destruct kafka_client as [raises|];
                          [destruct (raises i)|]|]; cbn; auto.
      * rewrite (pass_terminal_deferred i res H Hr Ht). cbn; auto.
  - rewrite (pass_raised i e H). cbn; auto.
Qed.

(** The commits of a pass: a pass that counts a retry commits nothing or
    the current offset; a pass that ends the loop commits nothing or the
    next offset. *)
Lemma pass_commits i :
  (outcome (pass_ i) = Returns (false, S i) ∧
   (commits (effects (pass_ i)) = [] ∨
    commits (effects (pass_ i)) = [(partition, offset)])) ∨
  (outcome (pass_ i) = Returns (true, i) ∧
   (commits (effects (pass_ i)) = [] ∨
    ∃ o, offset = Some o ∧
         commits (effects (pass_ i)) = [(partition, Some (o + 1))])).
Proof.
  destruct (attempt i) as [res|e] eqn:H.
  - destruct (in_result_for_retry res) eqn:Hr.
    + rewrite (pass_retryable i res H Hr).
      destruct kafka_client as [raises|]; [destruct (raises i)|]; cbn; auto.
    + destruct (Qltb (timeleft_ i) 1.5) eqn:Ht.
      * rewrite (pass_terminal_urgent i res H Hr Ht).
        destruct offset as [o|]; [destruct kafka_client as [raises|];
                          [destruct (raises i)|]|]; cbn; eauto 6.
      * rewrite (pass_terminal_deferred i res H Hr Ht). cbn; auto.
  - rewrite (pass_raised i e H). cbn; auto.
Qed.

(** One turn of the loop. *)
Lemma while_loop_turn fuel rc :
  (rc < max_retries)%nat →
  ∃ t st, pass_ rc = (t, Returns st) ∧
    while_loop_ (S fuel) false rc
    = (t ++ effects (while_loop_ fuel st.1 st.2),
       outcome (while_loop_ fuel st.1 st.2)).
Proof.
  intros Hlt. destruct (pass_step rc) as [_ Hst].
  destruct (pass_ rc) as [t c] eqn:Hp. cbn in Hst.
  assert (∃ st, c = Returns st) as [st ->] by (destruct Hst; eauto).
  exists t, st. split; [done|].
  cbn [while_loop].
  apply Nat.ltb_lt in Hlt. rewrite Hlt. cbn [negb andb].
  py_simpl. rewrite Hp.
  destruct (while_loop _ _ _ _ _ _ fuel st.1 st.2) as [t' c']. reflexivity.
Qed.

(** Once [next_condition] is set the loop is over. *)
Lemma while_loop_done fuel rc :
  while_loop_ fuel true rc = ([], Returns (Some (true, rc))).
Proof. destruct fuel; reflexivity. Qed.

(** The loop always comes to an end within [max_retries] passes. *)
Lemma while_loop_fuel fuel nc rc :
  (max_retries - rc ≤ fuel)%nat →
  ∃ st, outcome (while_loop_ fuel nc rc) = Returns (Some st).
Proof.
  revert nc rc. induction fuel as [|fuel IH]; intros nc rc Hf.
  - cbn [while_loop]. destruct nc; cbn [negb andb]; [eauto|].
    destruct (Nat.ltb_spec rc max_retries); [retries_lia|eauto].
  - destruct nc; [cbn; eauto|].
    destruct (Nat.ltb_spec rc max_retries) as [Hlt|Hge].
    + destruct (while_loop_turn fuel rc Hlt) as (t & st & Hp & ->).
      cbn [outcome snd].
      destruct (pass_step rc) as [_ Hst]. rewrite Hp in Hst. cbn in Hst.
      destruct Hst as [[= ->]|[= ->]]; cbn [fst snd].
      * rewrite while_loop_done. cbn. eauto.
      * destruct (IH false (S rc)) as [st' Hst']; [retries_lia|]. eauto.
    + cbn [while_loop negb andb].
      destruct (Nat.ltb_spec rc max_retries); [retries_lia|]. cbn. eauto.
Qed.

(** The attempts of the loop are numbered consecutively and stay below
    [max_retries]. *)
Lemma while_loop_dispatches fuel nc rc :
  ∃ k, dispatches (effects (while_loop_ fuel nc rc)) = seq rc k ∧
       (k ≤ max_retries - rc)%nat.
Proof.
  revert nc rc. induction fuel as [|fuel IH]; intros nc rc.
  - exists 0%nat. split; [|retries_lia]. cbn [while_loop].
    destruct (negb nc && (rc <? max_retries)%nat); reflexivity.
  - destruct nc; [exists 0%nat; split; [reflexivity|retries_lia]|].
    destruct (Nat.ltb_spec rc max_retries) as [Hlt|Hge].
    + destruct (while_loop_turn fuel rc Hlt) as (t & st & Hp & ->).
      cbn [effects fst].
      destruct (pass_step rc) as [Hd Hst]. rewrite Hp in Hd, Hst.
      cbn in Hd, Hst. unfold dispatches in *. rewrite omap_app, Hd.
      destruct Hst as [[= ->]|[= ->]]; cbn [fst snd].
      * exists 1%nat. split; [|retries_lia]. rewrite while_loop_done. reflexivity.
      * destruct (IH false (S rc)) as (k & -> & Hk).
        exists (S k). split; [reflexivity|retries_lia].
    + exists 0%nat. split; [|retries_lia]. cbn [while_loop negb andb].
      destruct (Nat.ltb_spec rc max_retries); [retries_lia|]. reflexivity.
Qed.

(** The commits of the loop: the current offset some number of times,
    then at most one commit of the next offset. *)
Lemma while_loop_commits fuel nc rc :
  ∃ n tail,
    commits (effects (while_loop_ fuel nc rc))
    = replicate n (partition, offset) ++ tail ∧
    (tail = [] ∨ ∃ o, offset = Some o ∧ tail = [(partition, Some (o + 1))]).
Proof.
  revert nc rc. induction fuel as [|fuel IH]; intros nc rc.
  - exists 0%nat, []. split; [|auto]. cbn [while_loop].
    destruct (negb nc && (rc <? max_retries)%nat); reflexivity.
  - destruct nc; [exists 0%nat, []; split; [reflexivity|auto]|].
    destruct (Nat.ltb_spec rc max_retries) as [Hlt|Hge].
    + destruct (while_loop_turn fuel rc Hlt) as (t & st & Hp & ->).
      cbn [effects fst].
      pose proof (pass_commits rc) as Hc. rewrite Hp in Hc. cbn in Hc.
      unfold commits in *. rewrite omap_app.
      destruct Hc as [[[= ->] Hc]|[[= ->] Hc]]; cbn [fst snd].
      * destruct (IH false (S rc)) as (n & tail & -> & Htail).
        destruct Hc as [->| ->].
        -- exists n, tail. auto.
        -- exists (S n), tail. auto.
      * rewrite while_loop_done. cbn [effects fst omap].
        destruct Hc as [->|(o & Ho & ->)].
        -- exists 0%nat, []. auto.
        -- exists 0%nat, [(partition, Some (o + 1))]. eauto.
    + exists 0%nat, []. split; [|auto]. cbn [while_loop negb andb].
      destruct (Nat.ltb_spec rc max_retries); [retries_lia|]. reflexivity.
Qed.
(** The loop of one mapping ends, and adds only its closing log line to
    what the passes did. *)
Lemma process_mapping_effects :
  effects process_mapping_ = effects (while_loop_ max_retries false 0) ++ [Log INFO] ∧
  ∃ st, outcome process_mapping_ = Returns (Some st).
Proof.
  destruct (while_loop_fuel max_retries false 0) as [st Hst]; [lia|].
  unfold process_mapping. py_simpl.
  destruct (while_loop _ _ _ _ _ _ max_retries false 0) as [t c].
  cbn in Hst. subst c. cbn. eauto.
Qed.

Lemma process_mapping_commits :
  commits (effects process_mapping_) = commits (effects (while_loop_ max_retries false 0)).
Proof.
  destruct process_mapping_effects as [-> _].
  unfold commits. rewrite omap_app. cbn. apply app_nil_r.
Qed.

Lemma process_mapping_sleeps :
  sleeps (effects process_mapping_) = sleeps (effects (while_loop_ max_retries false 0)).
Proof.
  destruct process_mapping_effects as [-> _].
  unfold sleeps. rewrite omap_app. cbn. apply app_nil_r.
Qed.

Lemma process_mapping_dispatches :
  dispatches (effects process_mapping_)
  = dispatches (effects (while_loop_ max_retries false 0)).
Proof.
  destruct process_mapping_effects as [-> _].
  unfold dispatches. rewrite omap_app. cbn. apply app_nil_r.
Qed.

(** At most [max_retries] dispatch attempts are made for a mapping. *)
Lemma process_mapping_attempts :
  ∃ k, dispatches (effects process_mapping_) = seq 0 k ∧ (k ≤ max_retries)%nat.
Proof.
  rewrite process_mapping_dispatches.
  destruct (while_loop_dispatches max_retries false 0) as (k & Hk & Hle).
  exists k. split; [done|lia].
Qed.
End StreamLoopFacts.



(** The rule of the terminal branch: a result that is not retryable, met on
    the first pass with a client that does not fail, commits the next
    offset exactly when [time_commit - time.time() * 1000] is below 1.5. *)
Lemma terminal_commit_rule
    (attempt : nat → completion (option Result)) (raises : nat → bool)
    (partition : option Z) (o : Z) (time_commit : option Q) (time_time : nat → Q) res :
  attempt 0%nat = Returns res → in_result_for_retry res = false →
  commits (effects (process_mapping attempt (Some raises) partition (Some o)
                      time_commit time_time))
  = if Qltb (timeleft time_commit time_time 0) 1.5
    then [(partition, Some (o + 1))] else [].
Proof.
  intros H Hr. rewrite process_mapping_commits. change max_retries with 3%nat.
  destruct (while_loop_turn attempt (Some raises) partition (Some o) time_commit
              time_time 2 0) as (t & st & Hp & ->); [retries_lia|].
  cbn [effects fst].
  destruct (Qltb (timeleft time_commit time_time 0) 1.5) eqn:Ht.
  - rewrite (pass_terminal_urgent attempt (Some raises) partition (Some o) time_commit
               time_time 0 res H Hr Ht) in Hp.
    assert (st = (true, 0%nat) ∧ commits t = [(partition, Some (o + 1))]) as [-> Hc]
      by (destruct (raises 0%nat); injection Hp as <- <-; done).
    cbn [fst snd]. rewrite while_loop_done. unfold commits in *.
    rewrite omap_app, Hc. reflexivity.
  - rewrite (pass_terminal_deferred attempt (Some raises) partition (Some o) time_commit
               time_time 0 res H Hr Ht) in Hp.
    injection Hp as <- <-. cbn [fst snd]. rewrite while_loop_done. reflexivity.
Qed.

(** C2. The terminal branch compares [time_commit - time.time() * 1000], a
    number of milliseconds, with 1.5: a SUCCEED at offset 7 commits 8 when
    that number is 1.0 and defers when it is 5.0, but with the deadline one
    second (1000 ms) ahead of the clock nothing is committed, although the
    log line of the branch speaks of 1.5 second. *)
Theorem deadline_one_second_ahead_is_deferred :
  let succeed : nat → completion (option Result) := λ _, Returns (Some SUCCEED) in
  let client := Some (λ _ : nat, false) in
  let now : nat → Q := λ _, 1700000000%Q in
  commits (effects (process_mapping succeed client (Some 0) (Some 7)
                      (Some (1700000000 * 1000 + 1)%Q) now)) = [(Some 0, Some 8)] ∧
  commits (effects (process_mapping succeed client (Some 0) (Some 7)
                      (Some (1700000000 * 1000 + 5)%Q) now)) = [] ∧
  commits (effects (process_mapping succeed client (Some 0) (Some 7)
                      (Some (1700000000 * 1000 + 1000)%Q) now)) = [].
Proof. cbn zeta. repeat split; vm_compute; reflexivity. Qed.

(** ** The pool-based retry loop *)

Section PoolTaskFacts.
Variable attempt : nat → completion (option Result).

Local Abbreviation try_once_ := (try_once attempt).
Local Abbreviation for_attempts_ := (for_attempts attempt).

Lemma try_once_raised a e :
  attempt a = Raises e →
  try_once_ a = ([Dispatch a; Log ERROR], Returns None).
Proof. intros H. unfold try_once. py_simpl. rewrite H. reflexivity. Qed.

Lemma try_once_retryable a res :
  attempt a = Returns res → in_result_for_retry res = true →
  try_once_ a
  = ([Dispatch a; Log WARNING; Sleep (inject_Z (2 ^ Z.of_nat a))], Returns None).
Proof. intros H Hr. unfold try_once. py_simpl. rewrite H, Hr. reflexivity. Qed.

Lemma try_once_terminal a res :
  attempt a = Returns res → in_result_for_retry res = false →
  try_once_ a = ([Dispatch a], Returns (Some res)).
Proof. intros H Hr. unfold try_once. py_simpl. rewrite H, Hr. reflexivity. Qed.

(** Every turn of the [for] loop makes one dispatch attempt and does not
    raise. *)
Lemma try_once_step a :
  ∃ t r, try_once_ a = (t, Returns r) ∧ dispatches t = [a].
Proof.
  destruct (attempt a) as [res|e] eqn:H.
  - destruct (in_result_for_retry res) eqn:Hr.
    + rewrite (try_once_retryable a res H Hr). eauto.
    + rewrite (try_once_terminal a res H Hr). eauto.
  - rewrite (try_once_raised a e H). eauto.
Qed.

Lemma for_attempts_cons a rest :
  ∃ t r, try_once_ a = (t, Returns r) ∧ dispatches t = [a] ∧
    for_attempts_ (a :: rest)
    = match r with
      | Some res => (t, Returns res)
      | None => (t ++ effects (for_attempts_ rest), outcome (for_attempts_ rest))
      end.
Proof.
  destruct (try_once_step a) as (t & r & Hp & Hd).
  exists t, r. split; [done|split; [done|]].
  cbn [for_attempts]. py_simpl. rewrite Hp.
  destruct r as [res|]; [by rewrite app_nil_r|].
  destruct (for_attempts attempt rest) as [t' c']. reflexivity.
Qed.

(** The loop returns, and the attempts it made are a prefix of the ones
    it was given. *)
Lemma for_attempts_returns l :
  ∃ r, outcome (for_attempts_ l) = Returns r.
Proof.
  induction l as [|a rest IH]; [by eexists|].
  destruct (for_attempts_cons a rest) as (t & r & _ & _ & ->).
  destruct r; cbn; eauto.
Qed.

Lemma for_attempts_dispatches l :
  dispatches (effects (for_attempts_ l)) `prefix_of` l.
Proof.
  induction l as [|a rest IH]; [done|].
  destruct (for_attempts_cons a rest) as (t & r & _ & Hd & ->).
  destruct r; cbn [effects fst].
  - rewrite Hd. by apply prefix_cons, prefix_nil.
  - unfold dispatches in *. rewrite omap_app, Hd. by apply prefix_cons.
Qed.


(** [process_single_mapping] never raises. *)
Lemma process_single_mapping_returns :
  ∃ r, outcome (process_single_mapping attempt) = Returns r.
Proof. apply for_attempts_returns. Qed.

(** [process_single_mapping] makes at most [max_retries] attempts. *)
Lemma process_single_mapping_attempts :
  dispatches (effects (process_single_mapping attempt)) `prefix_of` seq 0 max_retries.
Proof. apply for_attempts_dispatches. Qed.
End PoolTaskFacts.

(** The delay of the pool path is the retry law: [2 ** attempt] is never
    below 1. *)
Lemma backoff_law_pow attempt_no :
  backoff_law attempt_no = inject_Z (2 ^ Z.of_nat attempt_no).
Proof.
  unfold backoff_law. f_equal. apply Z.max_r.
  assert (0 < 2 ^ Z.of_nat attempt_no) by (apply Z.pow_pos_nonneg; lia). lia.
Qed.

(** C3, as stated, fails on the stream-coupled path: after the second
    retryable result (attempt 1) the delay is 1 second, not
    [max(1, 2^1) = 2]. *)
Lemma stream_path_delay_is_constant :
  let run := process_mapping
               (script3 (Returns (Some TIMEOUT)) (Returns (Some TIMEOUT))
                        (Returns (Some SUCCEED)))
               (Some (λ _, false)) (Some 0) (Some 42) None (λ _, 0%Q) in
  sleeps (effects run) = [1%Q; 1%Q] ∧
  ¬ (∀ i d, sleeps (effects run) !! i = Some d → d = backoff_law i).
Proof.
  cbn zeta. split; [vm_compute; reflexivity|].
  intros H. specialize (H 1%nat 1%Q eq_refl). vm_compute in H. discriminate.
Qed.

(** C3, amended. After a retryable result on attempt [i], the pool path
    ([process_single_mapping]) sleeps [2^i = max(1, 2^i)] seconds and goes
    on to the next attempt, while the stream path
    ([process_mappings_async]) sleeps 1 second and counts a retry; either
    path makes at most [max_retries = 3] attempts. *)
Theorem backoff_of_each_path
    (attempt : nat → completion (option Result)) (i : nat) (r : Result) :
  attempt i = Returns (Some r) → result_for_retry r = true →
  (sleeps (effects (try_once attempt i)) = [backoff_law i] ∧
   outcome (try_once attempt i) = Returns None ∧
   (length (dispatches (effects (process_single_mapping attempt))) ≤ 3)%nat) ∧
  (∀ kafka_client partition offset time_commit time_time,
     sleeps (effects (pass attempt kafka_client partition offset time_commit time_time i))
     = [1%Q] ∧
     outcome (pass attempt kafka_client partition offset time_commit time_time i)
     = Returns (false, S i) ∧
     (length (dispatches (effects (process_mapping attempt kafka_client partition offset
                                     time_commit time_time))) ≤ 3)%nat).
Proof.
  intros H Hr. split.
  - rewrite (try_once_retryable attempt i (Some r) H Hr), backoff_law_pow.
    split; [done|split; [done|]].
    pose proof (process_single_mapping_attempts attempt) as Hp.
    apply prefix_length in Hp. by rewrite length_seq in Hp.
  - intros kafka_client partition offset time_commit time_time.
    rewrite (pass_retryable attempt kafka_client partition offset time_commit time_time
               i (Some r) H Hr).
    destruct (process_mapping_attempts attempt kafka_client partition offset time_commit
                time_time) as (k & -> & Hk).
    rewrite length_seq.
    destruct kafka_client as [raises|]; [destruct (raises i)|]; cbn; done.
Qed.

Lemma backoff_of_each_path_witness :
  (sleeps (effects (try_once (λ _, Returns (Some TIMEOUT)) 2)) = [backoff_law 2] ∧
   outcome (try_once (λ _, Returns (Some TIMEOUT)) 2) = Returns None ∧
   (length (dispatches (effects (process_single_mapping
                                   (λ _, Returns (Some TIMEOUT))))) ≤ 3)%nat) ∧
  (∀ kafka_client partition offset time_commit time_time,
     sleeps (effects (pass (λ _, Returns (Some TIMEOUT)) kafka_client partition offset
                        time_commit time_time 2))
     = [1%Q] ∧
     outcome (pass (λ _, Returns (Some TIMEOUT)) kafka_client partition offset
                time_commit time_time 2)
     = Returns (false, 3%nat) ∧
     (length (dispatches (effects (process_mapping (λ _, Returns (Some TIMEOUT))
                                     kafka_client partition offset
                                     time_commit time_time))) ≤ 3)%nat).
Proof.
  apply (backoff_of_each_path (λ _, Returns (Some TIMEOUT)) 2 TIMEOUT); reflexivity.
Defined.



(** C8, as stated, fails for the commit made before a retry: when that
    call raises, the general handler of the loop logs it and sleeps 1
    second, not 10. *)
Lemma commit_failure_before_retry_pauses_one_second :
  let p := pass (λ _, Returns (Some TIMEOUT)) (Some (λ _, true)) (Some 0) (Some 42)
             None (λ _, 0%Q) 0 in
  commits (effects p) = [(Some 0, Some 42)] ∧
  sleeps (effects p) = [1%Q] ∧
  10%Q ∉ sleeps (effects p).
Proof.
  cbn zeta. split; [vm_compute; reflexivity|]. split; [vm_compute; reflexivity|].
  intros H. vm_compute in H. apply list_elem_of_singleton in H. discriminate.
Qed.

(** C8, amended. A commit call that raises never escapes the pass: when it
    is the commit of the next offset (terminal branch), the failure is
    logged, a pause of 10 follows and the loop ends; when it is the commit
    of the current offset (before a retry), the general handler logs it,
    pauses 1 second and counts a retry; in both cases the loop of the
    mapping comes to its end without raising. *)
Theorem commit_failure_is_degraded
    (attempt : nat → completion (option Result)) (raises : nat → bool)
    (partition : option Z) (o : Z) (time_commit : option Q) (time_time : nat → Q)
    (i : nat) :
  raises i = true →
  (∀ res, attempt i = Returns res → in_result_for_retry res = false →
     Qltb (timeleft time_commit time_time i) 1.5 = true →
     pass attempt (Some raises) partition (Some o) time_commit time_time i
     = ([Dispatch i; Log INFO; Log INFO; Commit partition (Some (o + 1));
         Log ERROR; Sleep 10], Returns (true, i))) ∧
  (∀ res, attempt i = Returns res → in_result_for_retry res = true →
     pass attempt (Some raises) partition (Some o) time_commit time_time i
     = ([Dispatch i; Log ERROR; Log ERROR; Commit partition (Some o);
         Log ERROR; Sleep 1], Returns (false, S i))) ∧
  (∃ st, outcome (pass attempt (Some raises) partition (Some o) time_commit time_time i)
         = Returns st) ∧
  (∃ st, outcome (process_mapping attempt (Some raises) partition (Some o)
                    time_commit time_time) = Returns (Some st)).
Proof.
  intros Hraise. repeat split.
  - intros res H Hr Ht.
    rewrite (pass_terminal_urgent attempt (Some raises) partition (Some o) time_commit
               time_time i res H Hr Ht).
    by rewrite Hraise.
  - intros res H Hr.
    rewrite (pass_retryable attempt (Some raises) partition (Some o) time_commit
               time_time i res H Hr).
    by rewrite Hraise.
  - destruct (pass_step attempt (Some raises) partition (Some o) time_commit time_time i)
      as [_ [H|H]]; eauto.
  - apply process_mapping_effects.
Qed.

Lemma commit_failure_is_degraded_witness :
  pass (λ _, Returns (Some SUCCEED)) (Some (λ _, true)) (Some 0) (Some 7) None
    (λ _, 0%Q) 0
  = ([Dispatch 0; Log INFO; Log INFO; Commit (Some 0) (Some (7 + 1));
      Log ERROR; Sleep 10], Returns (true, 0%nat)).
Proof.
  apply (proj1 (commit_failure_is_degraded (λ _, Returns (Some SUCCEED)) (λ _, true)
                  (Some 0) 7 None (λ _, 0%Q) 0 eq_refl) (Some SUCCEED)); reflexivity.
Defined.

(** ** The executors *)

Lemma future_result_returns (t : task) : future_result t = Returns (task_result t).
Proof.
  unfold task_result, future_result.
  destruct (process_single_mapping_returns t) as [r ->]. reflexivity.
Qed.

Lemma always_raises_result (t : task) :
  always_raises t →
  process_single_mapping t
  = ([Dispatch 0; Log ERROR; Dispatch 1; Log ERROR; Dispatch 2; Log ERROR],
     Returns (Some UNDEFINED_ERROR)).
Proof.
  intros Hr. unfold process_single_mapping. change max_retries with 3%nat.
  cbn [seq for_attempts]. py_simpl.
  destruct (Hr 0%nat) as [e0 H0], (Hr 1%nat) as [e1 H1], (Hr 2%nat) as [e2 H2].
  rewrite (try_once_raised t 0 e0 H0), (try_once_raised t 1 e1 H1),
    (try_once_raised t 2 e2 H2).
  reflexivity.
Qed.

Section ExecutorFacts.
Variable workers : nat.
Variable pause : list effect.
Variable batches : list (list task).

Local Abbreviation step := (exec_step workers pause).
Local Abbreviation reachable := (rtc (exec_step workers pause) (start_state batches)).

(** Induction over the states of a run, from the start. *)
Lemma reachable_ind (P : exec_state → Prop) :
  P (start_state batches) →
  (∀ s s', reachable s → P s → step s s' → P s') →
  ∀ s, reachable s → P s.
Proof.
  intros H0 Hstep. apply (rtc_ind_r P); [exact H0|].
  intros y z Hy Hyz Py. by apply (Hstep y z).
Qed.

(** No pool runs more tasks than it has workers. *)
Lemma in_flight_le_workers s : reachable s → (in_flight s ≤ workers)%nat.
Proof.
  revert s. apply reachable_ind; [cbn; lia|]. intros s s' Hs IH Hstep.
  inversion Hstep; subst; unfold in_flight in *; cbn in *;
    rewrite ?length_app in *; cbn in *; lia.
Qed.

(** No pool runs more tasks than the largest batch holds. *)
Lemma in_flight_le_batch n s :
  Forall (λ b, (length b ≤ n)%nat) batches → reachable s → (in_flight s ≤ n)%nat.
Proof.
  intros Hb Hs.
  enough (Forall (λ b, (length b ≤ n)%nat) (waiting s) ∧
          match pool s with
          | Some (q, run) => (length q + length run ≤ n)%nat
          | None => True
          end) as [_ H].
  { unfold in_flight. destruct (pool s) as [[q run]|]; lia. }
  revert s Hs. apply reachable_ind; [done|]. intros s s' Hs IH Hstep.
  destruct IH as [IHw IHp].
  inversion Hstep; subst; cbn in *; rewrite ?length_app in *; cbn in *.
  - apply Forall_cons in IHw as [? ?]. split; [done|lia].
  - split; [done|lia].
  - split; [done|lia].
  - done.
Qed.

(** What has been collected, together with what the unfinished tasks
    will yield, is what all tasks yield. *)
Lemma results_unfinished s :
  reachable s →
  results s ++ (task_result <$> unfinished s) ≡ₚ task_result <$> concat batches.
Proof.
  revert s. apply reachable_ind; [done|]. intros s s' Hs IH Hstep.
  rewrite <- IH. clear IH Hs.
  inversion Hstep; subst; unfold unfinished; cbn [pool waiting results concat].
  - by rewrite app_nil_l.
  - by rewrite <- (app_assoc run [t] q).
  - rewrite (future_result_returns t). cbn [collect fst].
    rewrite !fmap_app, fmap_cons, <- !app_assoc. cbn [app].
    apply Permutation_app_head, Permutation_middle.
  - done.
Qed.

(** The collecting loop logs nothing of its own: no future raises. *)
Lemma exec_log_pause s : reachable s → ∀ e, e ∈ exec_log s → e ∈ pause.
Proof.
  revert s. apply (reachable_ind (λ s, ∀ e, e ∈ exec_log s → e ∈ pause)).
  - intros e He. by apply elem_of_nil in He.
  - intros s s' Hs IH Hstep.
    inversion Hstep; subst; cbn in *; try done.
    + rewrite (future_result_returns t). cbn. by rewrite app_nil_r.
    + intros e He. apply elem_of_app in He as [He|He]; auto.
Qed.

(** A finished run has collected one result for every task. *)
Lemma finished_results s :
  reachable s → finished s → results s ≡ₚ task_result <$> concat batches.
Proof.
  intros Hs [Hw Hp]. rewrite <- (results_unfinished s Hs).
  unfold unfinished. rewrite Hw, Hp. cbn. by rewrite app_nil_r.
Qed.

(** A pool with a worker drains its queue. *)
Lemma drain_queue w q rs lg :
  (0 < workers)%nat →
  rtc step {| waiting := w; pool := Some (q, []); results := rs; exec_log := lg |}
           {| waiting := w; pool := Some ([], []);
              results := rs ++ (task_result <$> q); exec_log := lg |}.
Proof.
  intros Hw. revert rs. induction q as [|t q IH]; intros rs.
  - cbn. rewrite app_nil_r. done.
  - eapply rtc_l; [by apply step_start|].
    eapply rtc_l; [apply (step_done workers pause w q [] t [])|].
    rewrite (future_result_returns t). cbn [collect fst snd app].
    rewrite (app_nil_r lg).
    replace (rs ++ (task_result <$> t :: q))
      with ((rs ++ [task_result t]) ++ (task_result <$> q))
      by (by rewrite <- app_assoc).
    apply IH.
Qed.

(** With a worker in each pool, every run can be brought to its end. *)
Lemma run_to_the_end :
  (0 < workers)%nat → ∃ s, reachable s ∧ finished s.
Proof.
  intros Hw. unfold start_state.
  generalize (@nil (option Result)) as rs, (@nil effect) as lg.
  induction batches as [|b w IH]; intros rs lg.
  - eexists. split; [apply rtc_refl|done].
  - destruct (IH (rs ++ (task_result <$> b)) (lg ++ pause)) as (s & Hs & Hf).
    exists s. split; [|done].
    eapply rtc_l; [apply step_open|].
    etrans; [by apply drain_queue|].
    eapply rtc_l; [apply step_close|]. exact Hs.
Qed.
End ExecutorFacts.

(** ** The batches of the rate-limited executor *)

Lemma slices_length {A} (n : nat) (l : list A) :
  Forall (λ b, (length b ≤ n)%nat) (slices n l).
Proof.
  unfold slices. apply Forall_fmap, Forall_forall. intros i _. cbn.
  rewrite length_take. lia.
Qed.

Lemma concat_slices_take {A} (n k : nat) (l : list A) :
  concat ((λ i, take n (drop i l)) <$> ((λ j, j * n)%nat <$> seq 0 k)) = take (k * n) l.
Proof.
  induction k as [|k IH]; [done|].
  rewrite seq_S, !fmap_app, concat_app, IH. cbn [fmap list_fmap concat].
  rewrite app_nil_r, take_take_drop. f_equal. lia.
Qed.

(** The batches are the mappings, cut in order. *)
Lemma concat_slices {A} (n : nat) (l : list A) :
  (0 < n)%nat → concat (slices n l) = l.
Proof.
  intros Hn. unfold slices, range_by. rewrite concat_slices_take.
  apply take_ge.
  pose proof (Nat.div_mod_eq (length l + n - 1) n) as Hdiv.
  pose proof (Nat.mod_upper_bound (length l + n - 1) n) as Hmod.
  nia.
Qed.

Lemma rate_limit_batches_length (max_concurrent : Z) (tasks : list task)
    (batches : list (list task)) :
  rate_limit_batches max_concurrent tasks = Returns batches →
  Forall (λ b, (length b ≤ Z.to_nat max_concurrent)%nat) batches.
Proof.
  unfold rate_limit_batches.
  destruct (max_concurrent =? 0); [done|].
  destruct (max_concurrent <? 0); intros [= <-]; [done|apply slices_length].
Qed.

(** C9. Under [process_mapping_with_rate_limit] with [max_concurrent = N]
    and under [process_mapping_with_threads] with [max_workers = N], no
    state of a run has more than [N] dispatch calls in flight; so 50 tasks
    with a limit of 5, which the rate-limited executor runs as 10 batches
    of 5, never have more than 5 in flight. *)
Theorem in_flight_never_exceeds_limit (tasks : list task) (s : exec_state) :
  (∀ N min_interval,
     process_mapping_with_rate_limit N min_interval tasks s →
     (in_flight s ≤ Z.to_nat N)%nat) ∧
  (∀ default_workers N,
     process_mapping_with_threads default_workers (Some N) tasks s →
     (in_flight s ≤ Z.to_nat N)%nat) ∧
  (length tasks = 50%nat →
   (∃ batches, rate_limit_batches 5 tasks = Returns batches ∧
               length batches = 10%nat ∧
               Forall (λ b, length b = 5%nat) batches) ∧
   (∀ min_interval,
      process_mapping_with_rate_limit 5 min_interval tasks s → (in_flight s ≤ 5)%nat) ∧
   (∀ default_workers,
      process_mapping_with_threads default_workers (Some 5) tasks s →
      (in_flight s ≤ 5)%nat)).
Proof.
  assert (Hrate : ∀ N min_interval,
            process_mapping_with_rate_limit N min_interval tasks s →
            (in_flight s ≤ Z.to_nat N)%nat).
  { intros N min_interval (batches & Hb & Hs).
    eapply in_flight_le_batch; [|exact Hs].
    by apply (rate_limit_batches_length N tasks). }
  assert (Hwaves : length tasks = 50%nat →
            ∃ batches, rate_limit_batches 5 tasks = Returns batches ∧
                       length batches = 10%nat ∧
                       Forall (λ b, length b = 5%nat) batches).
  { intros Hlen. eexists. split; [reflexivity|].
    unfold slices, range_by. rewrite Hlen. cbn. split; [done|].
    repeat constructor; rewrite length_take, length_drop; lia. }
  assert (Hthreads : ∀ default_workers N,
            process_mapping_with_threads default_workers (Some N) tasks s →
            (in_flight s ≤ Z.to_nat N)%nat).
  { intros default_workers N (workers & Hw & Hs). cbn in Hw.
    destruct (N <=? 0); [done|]. injection Hw as <-.
    eapply in_flight_le_workers, Hs. }
  split; [exact Hrate|split; [exact Hthreads|]].
  intros Hlen. split; [by apply Hwaves|]. split.
  - intros min_interval H. apply (Hrate 5 min_interval H).
  - intros default_workers H. apply (Hthreads default_workers 5 H).
Qed.

Lemma in_flight_limit_witness :
  process_mapping_with_rate_limit 5 0.2 sample_tasks sample_busy_state ∧
  in_flight sample_busy_state = 5%nat ∧
  (in_flight sample_busy_state ≤ 5)%nat.
Proof.
  assert (Hreach : process_mapping_with_rate_limit 5 0.2 sample_tasks sample_busy_state).
  { exists (slices 5 sample_tasks). split; [reflexivity|].
    unfold start_state, sample_busy_state. cbn.
    eapply rtc_l; [apply step_open|].
    do 5 (eapply rtc_l; [apply step_start; cbn; lia|]; cbn).
    apply rtc_refl. }
  split; [exact Hreach|]. split; [reflexivity|].
  exact (proj1 (in_flight_never_exceeds_limit sample_tasks sample_busy_state)
           5 0.2%Q Hreach).
Defined.

(** C7. A task whose dispatch raises on every attempt does not raise
    itself: each exception is caught and logged inside
    [process_single_mapping], which returns UNDEFINED_ERROR for that task.
    So no future raises; every finished run of
    [process_mapping_with_threads] has collected exactly one result per
    submitted task, each task's own, in some order, and its collecting loop
    has logged no failure; and such a run exists for every pool with a
    worker. *)
Theorem failing_task_keeps_its_siblings
    (default_workers : nat) (max_workers : option Z) (tasks : list task) :
  (∀ t, always_raises t →
        process_single_mapping t
        = ([Dispatch 0; Log ERROR; Dispatch 1; Log ERROR; Dispatch 2; Log ERROR],
           Returns (Some UNDEFINED_ERROR)) ∧
        task_result t = Some UNDEFINED_ERROR) ∧
  (∀ t, future_result t = Returns (task_result t)) ∧
  (∀ s, process_mapping_with_threads default_workers max_workers tasks s →
        finished s →
        results s ≡ₚ task_result <$> tasks ∧
        length (results s) = length tasks ∧
        exec_log s = []) ∧
  (∀ workers, pool_workers default_workers max_workers = Returns workers →
        (0 < workers)%nat →
        ∃ s, process_mapping_with_threads default_workers max_workers tasks s ∧
             finished s).
Proof.
  split; [|split; [|split]].
  - intros t Ht. split; [by apply always_raises_result|].
    unfold task_result, future_result. by rewrite (always_raises_result t Ht).
  - apply future_result_returns.
  - intros s (workers & Hw & Hs) Hf.
    pose proof (finished_results workers [] [tasks] s Hs Hf) as Hp.
    cbn in Hp. rewrite app_nil_r in Hp.
    split; [exact Hp|]. split.
    + by rewrite Hp, length_fmap.
    + pose proof (exec_log_pause workers [] [tasks] s Hs) as Hl.
      destruct (exec_log s) as [|e lg]; [done|].
      specialize (Hl e (list_elem_of_here _ _)). by apply elem_of_nil in Hl.
  - intros workers Hw Hpos.
    destruct (run_to_the_end workers [] [tasks] Hpos) as (s & Hs & Hf).
    exists s. split; [by exists workers|done].
Qed.

Lemma failing_task_witness :
  ∃ s, process_mapping_with_threads 5 (Some 2) [failing_task; succeeding_task] s ∧
       finished s ∧
       results s ≡ₚ [Some UNDEFINED_ERROR; Some SUCCEED].
Proof.
  destruct (failing_task_keeps_its_siblings 5 (Some 2) [failing_task; succeeding_task])
    as (_ & _ & Hres & Hrun).
  destruct (Hrun 2%nat eq_refl) as (s & Hs & Hf); [lia|].
  exists s. split; [exact Hs|]. split; [exact Hf|].
  apply (Hres s Hs Hf).
Defined.

(** ** The stream-coupled loop when every attempt fails, and the loop over
    the mappings *)

Section StreamLoopExhaustion.
Variable attempt : nat → completion (option Result).
Variable kafka_client : option (nat → bool).
Variables partition offset : option Z.
Variable time_commit : option Q.
Variable time_time : nat → Q.

Local Abbreviation pass_ :=
  (pass attempt kafka_client partition offset time_commit time_time).
Local Abbreviation while_loop_ :=
  (while_loop attempt kafka_client partition offset time_commit time_time).
Local Abbreviation process_mapping_ :=
  (process_mapping attempt kafka_client partition offset time_commit time_time).

(** A turn of the loop on a retryable result. *)
Lemma while_loop_retry_turn fuel rc res :
  (rc < max_retries)%nat →
  attempt rc = Returns res → in_result_for_retry res = true →
  while_loop_ (S fuel) false rc
  = (effects (pass_ rc) ++ effects (while_loop_ fuel false (S rc)),
     outcome (while_loop_ fuel false (S rc))).
Proof.
  intros Hlt H Hr.
  destruct (while_loop_turn attempt kafka_client partition offset time_commit time_time
              fuel rc Hlt) as (t & st & Hp & ->).
  rewrite Hp. cbn [effects fst].
  rewrite (pass_retryable attempt kafka_client partition offset time_commit time_time
             rc res H Hr) in Hp.
  assert (st = (false, S rc)) as ->; [|done].
  destruct kafka_client as [raises|]; [destruct (raises rc)|]; by injection Hp.
Qed.

(** When each of the [max_retries] passes meets a retryable result, the
    loop gives up with [next_condition] still unset: nothing but the
    current offset has been committed, and no result is handed on. *)
Lemma stream_loop_exhausted :
  (∀ i, (i < max_retries)%nat →
        ∃ r, attempt i = Returns (Some r) ∧ result_for_retry r = true) →
  outcome process_mapping_ = Returns (Some (false, max_retries)) ∧
  dispatches (effects process_mapping_) = [0; 1; 2]%nat ∧
  commits (effects process_mapping_)
  = match kafka_client with
    | Some _ => replicate max_retries (partition, offset)
    | None => []
    end.
Proof.
  intros Hall.
  destruct (Hall 0%nat) as (r0 & H0 & Hr0); [retries_lia|].
  destruct (Hall 1%nat) as (r1 & H1 & Hr1); [retries_lia|].
  destruct (Hall 2%nat) as (r2 & H2 & Hr2); [retries_lia|].
  assert (Hloop : while_loop_ max_retries false 0
            = (effects (pass_ 0) ++ effects (pass_ 1) ++ effects (pass_ 2),
               Returns (Some (false, max_retries)))).
  { change max_retries with 3%nat.
    rewrite (while_loop_retry_turn 2 0 (Some r0)); [|retries_lia|done|done].
    rewrite (while_loop_retry_turn 1 1 (Some r1)); [|retries_lia|done|done].
    rewrite (while_loop_retry_turn 0 2 (Some r2)); [|retries_lia|done|done].
    cbn [effects outcome fst snd while_loop negb andb Nat.ltb Nat.leb max_retries].
    by rewrite app_nil_r. }
  split; [|split].
  - unfold process_mapping. py_simpl. rewrite Hloop. reflexivity.
  - rewrite process_mapping_dispatches, Hloop. cbn [effects fst].
    rewrite !dispatches_app. fold (effects (pass_ 0)) (effects (pass_ 1)) (effects (pass_ 2)).
    destruct (pass_step attempt kafka_client partition offset time_commit time_time 0)
      as [-> _].
    destruct (pass_step attempt kafka_client partition offset time_commit time_time 1)
      as [-> _].
    destruct (pass_step attempt kafka_client partition offset time_commit time_time 2)
      as [-> _].
    reflexivity.
  - rewrite process_mapping_commits, Hloop. cbn [effects fst].
    rewrite !commits_app.
    rewrite (pass_retryable attempt kafka_client partition offset time_commit time_time
               0 (Some r0) H0 Hr0),
            (pass_retryable attempt kafka_client partition offset time_commit time_time
               1 (Some r1) H1 Hr1),
            (pass_retryable attempt kafka_client partition offset time_commit time_time
               2 (Some r2) H2 Hr2).
    destruct kafka_client as [raises|]; [|reflexivity].
    destruct (raises 0%nat), (raises 1%nat), (raises 2%nat); reflexivity.
Qed.
End StreamLoopExhaustion.

(** [process_mappings_async] runs the loops of the mappings one after the
    other and never raises. *)
Lemma process_mappings_async_cons m rest has_client partition offset time_commit :
  effects (process_mappings_async (m :: rest) has_client partition offset time_commit)
  = effects (process_mapping (attempts m)
               (if has_client then Some (commit_raises m) else None)
               partition offset time_commit (clock m))
    ++ effects (process_mappings_async rest has_client partition offset time_commit) ∧
  outcome (process_mappings_async (m :: rest) has_client partition offset time_commit)
  = outcome (process_mappings_async rest has_client partition offset time_commit).
Proof.
  cbn [process_mappings_async].
  destruct (process_mapping_effects (attempts m)
              (if has_client then Some (commit_raises m) else None)
              partition offset time_commit (clock m)) as [_ [st Hst]].
  py_simpl.
  destruct (process_mapping _ _ _ _ _ _) as [t c]. cbn in Hst. subst c.
  destruct (process_mappings_async rest _ _ _ _) as [t' c']. done.
Qed.

Lemma process_mappings_async_returns ms has_client partition offset time_commit :
  outcome (process_mappings_async ms has_client partition offset time_commit) = Returns tt.
Proof.
  induction ms as [|m rest IH]; [done|].
  by rewrite (proj2 (process_mappings_async_cons m rest has_client partition offset
                       time_commit)).
Qed.

(** ** End-to-end scenarios *)

(** The result of the engine client, called for [sample_event] on an
    engine that answers with the given status, as the outcome of every
    dispatch attempt of a retry loop. *)
Example engine_200_succeeds_and_commits_next_offset :
  let attempt := λ _ : nat,
    outcome (run_playbook (always_status 200) sample_event sample_tenant_info
               VNone VNone (VDict {[ "mapping_id" := VInt 1 ]})).2 in
  let run := process_mapping attempt (Some (λ _, false)) (Some 0) (Some 42) None
               (λ _, 0%Q) in
  dispatches (effects run) = [0%nat] ∧
  commits (effects run) = [(Some 0, Some 43)] ∧
  outcome (process_single_mapping attempt) = Returns (Some SUCCEED).
Proof. cbn zeta. repeat split; vm_compute; reflexivity. Qed.

Example engine_500_exhausts_the_retries :
  let attempt := λ _ : nat,
    outcome (run_playbook (always_status 500) sample_event sample_tenant_info
               VNone VNone (VDict {[ "mapping_id" := VInt 1 ]})).2 in
  let run := process_mapping attempt (Some (λ _, false)) (Some 0) (Some 42) None
               (λ _, 0%Q) in
  dispatches (effects run) = [0; 1; 2]%nat ∧
  commits (effects run) = [(Some 0, Some 42); (Some 0, Some 42); (Some 0, Some 42)] ∧
  outcome (process_single_mapping attempt) = Returns (Some UNDEFINED_ERROR).
Proof. cbn zeta. repeat split; vm_compute; reflexivity. Qed.

(** ** More on the engine client *)

(** X1. The request sent by [ingest] on an engine built by [__init__]
    carries an Authorization header exactly when the access token is true,
    an X-API-KEY header exactly when the API key is true, a Tenant header
    exactly when a true tenant is passed, and no other header; it goes to
    [ingest_api] with the payload as given and the tenant's
    [request_timeout], 30 when there is none. *)
Theorem ingest_request_headers
    (net : request → http_outcome) (api access_token api_key payload : value)
    (tenant_info : gmap string value) (tenant : value) :
  ∃ r,
    posts (effects (ingest net (new_engine api access_token api_key) payload
                      tenant_info tenant)) = [r] ∧
    req_url r = IngestUrl api ∧
    req_json r = payload ∧
    req_headers r !! "Authorization"
      = (if truthy access_token then Some (Bearer access_token) else None) ∧
    req_headers r !! "X-API-KEY" = (if truthy api_key then Some (Plain api_key) else None) ∧
    req_headers r !! "Tenant" = (if truthy tenant then Some (Plain tenant) else None) ∧
    (∀ k, k ≠ "Authorization" → k ≠ "X-API-KEY" → k ≠ "Tenant" →
          req_headers r !! k = None) ∧
    req_timeout r = default (VInt 30) (tenant_info !! "request_timeout").
Proof.
  destruct (ingest_outcome net (new_engine api access_token api_key) payload tenant_info
              tenant) as (r & Hr & _).
  exists r. split; [exact Hr|].
  unfold ingest in Hr. py_simpl. destruct (after_post _) as [t c] in Hr.
  cbn in Hr. injection Hr as <- _. cbn [req_url req_json req_headers req_timeout].
  unfold new_engine. cbn [ingest_api headers].
  repeat split.
  - destruct (truthy tenant), (truthy access_token), (truthy api_key);
      by simplify_map_eq.
  - destruct (truthy tenant), (truthy access_token), (truthy api_key);
      by simplify_map_eq.
  - destruct (truthy tenant), (truthy access_token), (truthy api_key);
      by simplify_map_eq.
  - intros k H1 H2 H3.
    destruct (truthy tenant), (truthy access_token), (truthy api_key);
      by simplify_map_eq.
Qed.

(** X2. [ingest] never raises: whatever the exchange with the engine
    yields, the call posts exactly one request and returns, and what it
    returns is None exactly when the engine answered with a status other
    than 200 and 500. *)
Theorem ingest_never_raises
    (net : request → http_outcome) (self : AsyncOrenctlEngine) (payload : value)
    (tenant_info : gmap string value) (tenant : value) :
  ∃ r res,
    posts (effects (ingest net self payload tenant_info tenant)) = [r] ∧
    outcome (ingest net self payload tenant_info tenant) = Returns res ∧
    (res = None ↔ ∃ status, net r = HttpStatus status ∧ status ≠ 200 ∧ status ≠ 500).
Proof.
  destruct (ingest_outcome net self payload tenant_info tenant) as (r & Hr & Ho).
  exists r. rewrite Ho.
  destruct (net r) as [status|e] eqn:Hn; unfold after_post.
  - destruct (Z.eqb_spec status 200) as [->|H2].
    { eexists. split; [done|split; [done|]]. split; [done|]. by intros (s & [= <-] & ? & ?). }
    destruct (Z.eqb_spec status 500) as [->|H5].
    { eexists. split; [done|split; [done|]]. split; [done|]. by intros (s & [= <-] & ? & ?). }
    eexists. split; [done|split; [done|]]. split; [|done]. intros _. by exists status.
  - destruct e; eexists; (split; [done|split; [done|]]);
      (split; [done|by intros (s & ? & _)]).
Qed.

(** Once [run_playbook] has its URI and ids, it does not raise. *)
Lemma run_playbook_send_returns
    (net : request → http_outcome) (event tenant_info : gmap string value)
    (uri : url) (p c extra_info : value) e :
  outcome
    (if negb (truthy p)
     then (event, emit (Log ERROR);; mret (Some INVALID_EVENT))
     else
       (<["extra_info" := extra_info]> event,
        emit (Post (playbook_request uri p c
                      (<["extra_info" := extra_info]> event) tenant_info));;
        after_post (net (playbook_request uri p c
                      (<["extra_info" := extra_info]> event) tenant_info)))).2
  ≠ Raises e.
Proof.
  destruct (truthy p); cbn [negb]; [|done].
  py_simpl.
  destruct (after_post_never_raises (net (playbook_request uri p c
              (<["extra_info" := extra_info]> event) tenant_info))) as [r Hr].
  destruct (after_post _) as [t c']. cbn in *. by subst.
Qed.

(** X3. [run_playbook] raises only before it has done anything: when it
    raises, nothing was logged or posted and the event is untouched, and
    the exception is the KeyError of a tenant setting that is missing
    (["tenant_id"], then ["engine_api_uri"]) or the AttributeError of an
    [event["data"]] that is true but no dict. *)
Theorem run_playbook_raises_before_any_request
    (net : request → http_outcome) (event tenant_info : gmap string value)
    (playbook_id config_id extra_info : value) (e : exn) :
  let run := run_playbook net event tenant_info playbook_id config_id extra_info in
  outcome run.2 = Raises e →
  effects run.2 = [] ∧ run.1 = event ∧
  ((e = KeyError "tenant_id" ∧ tenant_info !! "tenant_id" = None) ∨
   (e = KeyError "engine_api_uri" ∧ tenant_info !! "engine_api_uri" = None) ∨
   (e = AttributeError ∧
    ∃ v, event !! "data" = Some v ∧ truthy v = true ∧ ∀ d, v ≠ VDict d)).
Proof.
  cbn zeta. unfold run_playbook, subscript, or_get, attr_get.
  destruct (tenant_info !! "tenant_id") as [dflt|] eqn:Ht;
    [|cbn; intros [= <-]; auto].
  destruct (tenant_info !! "engine_api_uri") as [base|] eqn:Hb;
    [|cbn; intros [= <-]; auto 6].
  py_simpl.
  assert (Hdata : dict_get event "data" = default VNone (event !! "data")) by done.
  rewrite !Hdata. clear Hdata.
  destruct (event !! "data") as [data|] eqn:Hd; cbn [default from_option id].
  - destruct (truthy data) eqn:Htd.
    + destruct data as [| b | z | s | d].
      5: { destruct (truthy playbook_id), (truthy config_id); cbn;
           intros H; by apply run_playbook_send_returns in H. }
      all: destruct (truthy playbook_id), (truthy config_id); cbn;
        intros H; try (by apply run_playbook_send_returns in H);
        injection H as <-; (split; [done|split; [done|]]);
        right; right; (split; [done|]); eexists; (split; [done|split; [done|done]]).
    + cbn. intros H. by apply run_playbook_send_returns in H.
  - cbn. intros H. by apply run_playbook_send_returns in H.
Qed.

Lemma run_playbook_raises_witness :
  effects (run_playbook (always_status 200) sample_event ∅ VNone VNone VNone).2 = [] ∧
  (run_playbook (always_status 200) sample_event ∅ VNone VNone VNone).1 = sample_event ∧
  ((KeyError "tenant_id" = KeyError "tenant_id" ∧
    (∅ : gmap string value) !! "tenant_id" = None) ∨
   (KeyError "tenant_id" = KeyError "engine_api_uri" ∧
    (∅ : gmap string value) !! "engine_api_uri" = None) ∨
   (KeyError "tenant_id" = AttributeError ∧
    ∃ v, sample_event !! "data" = Some v ∧ truthy v = true ∧ ∀ d, v ≠ VDict d)).
Proof.
  apply (run_playbook_raises_before_any_request (always_status 200) sample_event ∅
           VNone VNone VNone (KeyError "tenant_id")).
  reflexivity.
Defined.

Lemma posts_of_exchange (net : request → http_outcome) (r : request) :
  posts (effects (emit (Post r);; after_post (net r))) = [r].
Proof.
  py_simpl. pose proof (after_post_no_posts (net r)) as Hp.
  destruct (after_post (net r)) as [t c]. cbn in *. unfold posts in *. cbn.
  by rewrite Hp.
Qed.

(** X4. True [playbook_id] and [config_id] arguments win over the event:
    whatever [event["data"]] holds, dict or not, one request is posted to
    the engine URI of the event's tenant (the tenant settings' [tenant_id]
    when the event has no ["tenant"] key); its body is exactly
    [playbook_id], [config_id] and the event with [extra_info] stored in
    it, and it carries no header. *)
Theorem run_playbook_arguments_win
    (net : request → http_outcome) (event tenant_info : gmap string value)
    (playbook_id config_id extra_info dflt base : value) :
  tenant_info !! "tenant_id" = Some dflt →
  tenant_info !! "engine_api_uri" = Some base →
  truthy playbook_id = true → truthy config_id = true →
  let run := run_playbook net event tenant_info playbook_id config_id extra_info in
  let event' := <["extra_info" := extra_info]> event in
  run.1 = event' ∧
  posts (effects run.2)
  = [ {| req_url := RunPlaybookUrl base (default dflt (event !! "tenant"));
         req_json := VDict (<["config_id" := config_id]>
                              (<["input_event" := VDict event']>
                                 {["playbook_id" := playbook_id]}));
         req_headers := ∅;
         req_timeout := default (VInt 30) (tenant_info !! "request_timeout") |} ].
Proof.
  intros Ht Hb Hp Hc. cbn zeta.
  unfold run_playbook, subscript, or_get, attr_get. rewrite Ht, Hb, Hp, Hc.
  py_simpl.
  destruct (truthy (dict_get event "data")); cbn; rewrite Hp; cbn.
  all: split; [done|].
  all: rewrite <- (posts_of_exchange net).
  all: unfold playbook_request; rewrite Hc; reflexivity.
Qed.

Lemma run_playbook_arguments_win_witness :
  (run_playbook (always_status 200) sample_event sample_tenant_info
     (VStr "pb-9") (VStr "cfg-9") VNone).1
  = <["extra_info" := VNone]> sample_event ∧
  posts (effects (run_playbook (always_status 200) sample_event sample_tenant_info
                    (VStr "pb-9") (VStr "cfg-9") VNone).2)
  = [ {| req_url := RunPlaybookUrl (VStr "http://engine")
                      (default (VStr "t1") (sample_event !! "tenant"));
         req_json := VDict (<["config_id" := VStr "cfg-9"]>
                              (<["input_event" := VDict (<["extra_info" := VNone]>
                                                           sample_event)]>
                                 {["playbook_id" := VStr "pb-9"]}));
         req_headers := ∅;
         req_timeout := default (VInt 30) (sample_tenant_info !! "request_timeout") |} ].
Proof.
  apply (run_playbook_arguments_win (always_status 200) sample_event sample_tenant_info
           (VStr "pb-9") (VStr "cfg-9") VNone (VStr "t1") (VStr "http://engine"));
    reflexivity.
Defined.

(** X5. False arguments fall back on the event: with [event["data"]] a
    dict holding a true ["playbook_id"], the request carries that id, and
    it carries a ["config_id"] exactly when the dict holds a true one. *)
Theorem run_playbook_falls_back_on_event_data
    (net : request → http_outcome) (event tenant_info d : gmap string value)
    (playbook_id config_id extra_info dflt base : value) :
  tenant_info !! "tenant_id" = Some dflt →
  tenant_info !! "engine_api_uri" = Some base →
  truthy playbook_id = false → truthy config_id = false →
  event !! "data" = Some (VDict d) →
  truthy (dict_get d "playbook_id") = true →
  let run := run_playbook net event tenant_info playbook_id config_id extra_info in
  ∃ r body,
    posts (effects run.2) = [r] ∧ req_json r = VDict body ∧
    body !! "playbook_id" = Some (dict_get d "playbook_id") ∧
    body !! "config_id"
    = (if truthy (dict_get d "config_id") then Some (dict_get d "config_id") else None).
Proof.
  intros Ht Hb Hp Hc Hd Hdp. cbn zeta.
  unfold run_playbook, subscript, or_get, attr_get. rewrite Ht, Hb, Hp, Hc.
  py_simpl.
  assert (Hdata : dict_get event "data" = VDict d) by (unfold dict_get; by rewrite Hd).
  rewrite !Hdata. cbn [truthy].
  assert (Hne : negb (bool_decide (d = ∅)) = true).
  { apply negb_true_iff, bool_decide_eq_false. intros ->.
    unfold dict_get in Hdp. by rewrite lookup_empty in Hdp. }
  rewrite Hne. cbn. rewrite Hdp. cbn.
  eexists _, _. split; [apply posts_of_exchange|]. split; [reflexivity|].
  destruct (truthy (dict_get d "config_id")); by simplify_map_eq.
Qed.

Lemma run_playbook_falls_back_witness :
  ∃ r body,
    posts (effects (run_playbook (always_status 200) sample_event sample_tenant_info
                      VNone VNone VNone).2) = [r] ∧
    req_json r = VDict body ∧
    body !! "playbook_id"
    = Some (dict_get {[ "playbook_id" := VStr "pb-1" ]} "playbook_id") ∧
    body !! "config_id"
    = (if truthy (dict_get {[ "playbook_id" := VStr "pb-1" ]} "config_id")
       then Some (dict_get {[ "playbook_id" := VStr "pb-1" ]} "config_id") else None).
Proof.
  apply (run_playbook_falls_back_on_event_data (always_status 200) sample_event
           sample_tenant_info {[ "playbook_id" := VStr "pb-1" ]}
           VNone VNone VNone (VStr "t1") (VStr "http://engine"));
    reflexivity.
Defined.

(** ** More on the stream-coupled loop *)

Section StreamLoopMore.
Variable attempt : nat → completion (option Result).
Variable kafka_client : option (nat → bool).
Variables partition offset : option Z.
Variable time_commit : option Q.
Variable time_time : nat → Q.

Local Abbreviation pass_ :=
  (pass attempt kafka_client partition offset time_commit time_time).
Local Abbreviation while_loop_ :=
  (while_loop attempt kafka_client partition offset time_commit time_time).
Local Abbreviation process_mapping_ :=
  (process_mapping attempt kafka_client partition offset time_commit time_time).
Local Abbreviation timeleft_ := (timeleft time_commit time_time).

(** A failing attempt counts a retry, and sleeps 1 second. *)
Lemma pass_failing i :
  failing (attempt i) = true →
  outcome (pass_ i) = Returns (false, S i) ∧ sleeps (effects (pass_ i)) = [1%Q].
Proof.
  intros Hf. destruct (attempt i) as [res|e] eqn:H; cbn in Hf.
  - rewrite (pass_retryable attempt kafka_client partition offset time_commit time_time
               i res H Hf).
    destruct kafka_client as [raises|]; [destruct (raises i)|]; done.
  - by rewrite (pass_raised attempt kafka_client partition offset time_commit time_time
                  i e H).
Qed.

(** With an offset, an attempt that does not fail ends the loop. *)
Lemma pass_terminal i o :
  offset = Some o → failing (attempt i) = false →
  outcome (pass_ i) = Returns (true, i).
Proof.
  intros Ho Hf. destruct (attempt i) as [res|e] eqn:H; cbn in Hf; [|done].
  destruct (Qltb (timeleft_ i) 1.5) eqn:Ht.
  - rewrite (pass_terminal_urgent attempt kafka_client partition offset time_commit
               time_time i res H Hf Ht), Ho.
    destruct kafka_client as [raises|]; [destruct (raises i)|]; done.
  - by rewrite (pass_terminal_deferred attempt kafka_client partition offset time_commit
                  time_time i res H Hf Ht).
Qed.

(** Without an offset and close to the deadline, every pass counts a
    retry: [offset + 1] raises TypeError inside the loop's [try]. *)
Lemma pass_without_offset i :
  offset = None → Qltb (timeleft_ i) 1.5 = true →
  outcome (pass_ i) = Returns (false, S i).
Proof.
  intros Ho Ht. destruct (failing (attempt i)) eqn:Hf; [by apply pass_failing|].
  destruct (attempt i) as [res|e] eqn:H; cbn in Hf; [|done].
  by rewrite (pass_terminal_urgent attempt kafka_client partition offset time_commit
                time_time i res H Hf Ht), Ho.
Qed.

(** The sleeps of a pass. *)
Lemma pass_sleeps i :
  (outcome (pass_ i) = Returns (false, S i) ∧ sleeps (effects (pass_ i)) = [1%Q]) ∨
  (outcome (pass_ i) = Returns (true, i) ∧
   (sleeps (effects (pass_ i)) = [] ∨ sleeps (effects (pass_ i)) = [10%Q])).
Proof.
  destruct (failing (attempt i)) eqn:Hf; [left; by apply pass_failing|].
  destruct (attempt i) as [res|e] eqn:H; cbn in Hf; [|done].
  destruct (Qltb (timeleft_ i) 1.5) eqn:Ht.
  - rewrite (pass_terminal_urgent attempt kafka_client partition offset time_commit
               time_time i res H Hf Ht).
    destruct offset; [destruct kafka_client as [raises|]; [destruct (raises i)|]|];
      cbn; auto.
  - rewrite (pass_terminal_deferred attempt kafka_client partition offset time_commit
               time_time i res H Hf Ht). cbn; auto.
Qed.

(** A turn of the loop, by the outcome of its pass. *)
Lemma while_loop_turn_on fuel rc st :
  (rc < max_retries)%nat → outcome (pass_ rc) = Returns st →
  while_loop_ (S fuel) false rc
  = (effects (pass_ rc) ++ effects (while_loop_ fuel st.1 st.2),
     outcome (while_loop_ fuel st.1 st.2)).
Proof.
  intros Hlt Ho.
  destruct (while_loop_turn attempt kafka_client partition offset time_commit time_time
              fuel rc Hlt) as (t & st' & Hp & ->).
  rewrite Hp in Ho |- *. cbn in Ho. by injection Ho as ->.
Qed.

(** When the passes from [rc] on all count a retry, the loop runs until
    [max_retries]. *)
Lemma while_loop_all_retry fuel rc :
  (max_retries - rc ≤ fuel)%nat →
  (∀ i, (rc ≤ i < max_retries)%nat → outcome (pass_ i) = Returns (false, S i)) →
  dispatches (effects (while_loop_ fuel false rc)) = seq rc (max_retries - rc) ∧
  outcome (while_loop_ fuel false rc) = Returns (Some (false, Nat.max rc max_retries)).
Proof.
  revert rc. induction fuel as [|fuel IH]; intros rc Hf Hall.
  - assert (max_retries - rc = 0)%nat as -> by lia.
    cbn [while_loop negb andb]. destruct (Nat.ltb_spec rc max_retries); [lia|].
    cbn. split; [done|]. do 3 f_equal. lia.
  - destruct (Nat.ltb_spec rc max_retries) as [Hlt|Hge].
    + rewrite (while_loop_turn_on fuel rc (false, S rc) Hlt); [|apply Hall; lia].
      cbn [fst snd effects outcome].
      destruct (IH (S rc)) as [IHd IHo]; [lia|intros i Hi; apply Hall; lia|].
      rewrite dispatches_app, IHd, IHo.
      destruct (pass_step attempt kafka_client partition offset time_commit time_time rc)
        as [-> _].
      split.
      * replace (max_retries - rc)%nat with (S (max_retries - S rc)) by lia. done.
      * do 3 f_equal. lia.
    + assert (max_retries - rc = 0)%nat as -> by lia.
      cbn [while_loop negb andb]. destruct (Nat.ltb_spec rc max_retries); [lia|].
      cbn. split; [done|]. do 3 f_equal. lia.
Qed.

(** When the passes before [i] count a retry and pass [i] ends the loop,
    no attempt is made after [i]. *)
Lemma while_loop_until fuel rc i :
  (rc ≤ i < max_retries)%nat → (i - rc < fuel)%nat →
  (∀ j, (rc ≤ j < i)%nat → outcome (pass_ j) = Returns (false, S j)) →
  outcome (pass_ i) = Returns (true, i) →
  dispatches (effects (while_loop_ fuel false rc)) = seq rc (S i - rc) ∧
  outcome (while_loop_ fuel false rc) = Returns (Some (true, i)).
Proof.
  revert rc. induction fuel as [|fuel IH]; intros rc Hi Hf Hall Hend; [lia|].
  destruct (decide (rc = i)) as [->|Hne].
  - rewrite (while_loop_turn_on fuel i (true, i)); [|lia|done].
    cbn [fst snd effects outcome]. rewrite while_loop_done, app_nil_r.
    destruct (pass_step attempt kafka_client partition offset time_commit time_time i)
      as [-> _].
    replace (S i - i)%nat with 1%nat by lia. done.
  - rewrite (while_loop_turn_on fuel rc (false, S rc)); [|lia|apply Hall; lia].
    cbn [fst snd effects outcome].
    destruct (IH (S rc)) as [IHd IHo]; [lia|lia|intros j Hj; apply Hall; lia|done|].
    rewrite dispatches_app, IHd, IHo.
    destruct (pass_step attempt kafka_client partition offset time_commit time_time rc)
      as [-> _].
    replace (S i - rc)%nat with (S (S i - S rc)) by lia. done.
Qed.
End StreamLoopMore.

(** X6. With an offset given, the loop of a mapping stops at the first
    attempt that neither raises nor returns a retryable result: when that
    is attempt [i], preceded by failing attempts only, exactly the
    attempts 0 to [i] are made and the loop ends with [next_condition]
    set, whether or not the commit succeeds. *)
Theorem stream_loop_stops_at_first_result
    (attempt : nat → completion (option Result)) (kafka_client : option (nat → bool))
    (partition : option Z) (o : Z) (time_commit : option Q) (time_time : nat → Q)
    (i : nat) :
  (i < max_retries)%nat →
  failing (attempt i) = false →
  (∀ j, (j < i)%nat → failing (attempt j) = true) →
  dispatches (effects (process_mapping attempt kafka_client partition (Some o)
                         time_commit time_time)) = seq 0 (S i) ∧
  outcome (process_mapping attempt kafka_client partition (Some o) time_commit time_time)
  = Returns (Some (true, i)).
Proof.
  intros Hi Hend Hall.
  destruct (while_loop_until attempt kafka_client partition (Some o) time_commit time_time
              max_retries 0 i) as [Hd Ho]; [lia|lia| |by eapply pass_terminal|].
  { intros j Hj. apply pass_failing, Hall. lia. }
  rewrite process_mapping_dispatches, Hd, Nat.sub_0_r. split; [done|].
  unfold process_mapping. py_simpl.
  destruct (while_loop _ _ _ _ _ _ max_retries false 0) as [t c]. cbn in Ho. by subst c.
Qed.

Lemma stream_loop_stops_witness :
  dispatches (effects (process_mapping
                         (script3 (Raises OtherException) (Returns None)
                                  (Returns (Some TIMEOUT)))
                         (Some (λ _, true)) (Some 0) (Some 42) None (λ _, 0%Q)))
  = seq 0 2 ∧
  outcome (process_mapping
             (script3 (Raises OtherException) (Returns None) (Returns (Some TIMEOUT)))
             (Some (λ _, true)) (Some 0) (Some 42) None (λ _, 0%Q))
  = Returns (Some (true, 1%nat)).
Proof.
  apply (stream_loop_stops_at_first_result
           (script3 (Raises OtherException) (Returns None) (Returns (Some TIMEOUT)))
           (Some (λ _, true)) (Some 0) 42 None (λ _, 0%Q) 1).
  - unfold max_retries. lia.
  - reflexivity.
  - intros j Hj. assert (j = 0%nat) as -> by lia. reflexivity.
Defined.

(** X7. Without an offset (the default [offset=None]) and close to the
    deadline (as with the default [time_commit=None]), the loop never ends
    early: [offset + 1] raises TypeError inside the loop's [try], so every
    mapping is dispatched [max_retries] times whatever the engine answers,
    success included, and no next offset is ever committed. *)
Theorem missing_offset_redispatches
    (attempt : nat → completion (option Result)) (kafka_client : option (nat → bool))
    (partition : option Z) (time_commit : option Q) (time_time : nat → Q) :
  (∀ i, Qltb (timeleft time_commit time_time i) 1.5 = true) →
  dispatches (effects (process_mapping attempt kafka_client partition None
                         time_commit time_time)) = [0; 1; 2]%nat ∧
  outcome (process_mapping attempt kafka_client partition None time_commit time_time)
  = Returns (Some (false, max_retries)) ∧
  Forall (λ c, c = (partition, None))
    (commits (effects (process_mapping attempt kafka_client partition None
                         time_commit time_time))).
Proof.
  intros Ht.
  destruct (while_loop_all_retry attempt kafka_client partition None time_commit time_time
              max_retries 0) as [Hd Ho]; [lia| |].
  { intros i _. by apply pass_without_offset. }
  split; [by rewrite process_mapping_dispatches, Hd|]. split.
  - unfold process_mapping. py_simpl.
    destruct (while_loop _ _ _ _ _ _ max_retries false 0) as [t c]. cbn in Ho. by subst c.
  - rewrite process_mapping_commits.
    destruct (while_loop_commits attempt kafka_client partition None time_commit time_time
                max_retries false 0) as (n & tail & -> & [->|(o & [=] & _)]).
    rewrite app_nil_r. apply Forall_replicate. done.
Qed.

Lemma missing_offset_witness :
  dispatches (effects (process_mapping (λ _, Returns (Some SUCCEED)) None None None
                         None (λ _, 0%Q))) = [0; 1; 2]%nat ∧
  outcome (process_mapping (λ _, Returns (Some SUCCEED)) None None None None (λ _, 0%Q))
  = Returns (Some (false, max_retries)) ∧
  Forall (λ c, c = (None, None))
    (commits (effects (process_mapping (λ _, Returns (Some SUCCEED)) None None None
                         None (λ _, 0%Q)))).
Proof.
  apply (missing_offset_redispatches (λ _, Returns (Some SUCCEED)) None None None
           (λ _, 0%Q)).
  intros i. reflexivity.
Defined.

(** X8. The loop looks at a result only to see whether it is retryable:
    None (an unmapped HTTP status), INVALID_EVENT and UNDEFINED_ERROR are
    handled exactly as SUCCEED is, down to the commit of the next
    offset. *)
Theorem stream_loop_sees_only_retryability
    (attempt : nat → completion (option Result)) (kafka_client : option (nat → bool))
    (partition offset : option Z) (time_commit : option Q) (time_time : nat → Q) :
  process_mapping (λ i, as_success (attempt i)) kafka_client partition offset
    time_commit time_time
  = process_mapping attempt kafka_client partition offset time_commit time_time.
Proof.
  assert (Hpass : ∀ i,
    pass (λ i, as_success (attempt i)) kafka_client partition offset time_commit
      time_time i
    = pass attempt kafka_client partition offset time_commit time_time i).
  { intros i. unfold pass, as_success. py_simpl.
    destruct (attempt i) as [res|e]; [|done].
    destruct (in_result_for_retry res) eqn:Hr; [by rewrite Hr|]. cbn. done. }
  assert (Hloop : ∀ fuel nc rc,
    while_loop (λ i, as_success (attempt i)) kafka_client partition offset time_commit
      time_time fuel nc rc
    = while_loop attempt kafka_client partition offset time_commit time_time fuel nc rc).
  { induction fuel as [|fuel IH]; intros nc rc; [done|].
    cbn [while_loop]. destruct (negb nc && (rc <? max_retries)%nat); [|done].
    rewrite Hpass. py_simpl.
    destruct (pass attempt _ _ _ _ _ rc) as [t [st|e]]; [|done]. by rewrite IH. }
  unfold process_mapping. by rewrite Hloop.
Qed.

(** Without a client no pass commits anything. *)
Lemma pass_no_client attempt partition offset time_commit time_time i :
  commits (effects (pass attempt None partition offset time_commit time_time i)) = [].
Proof.
  destruct (attempt i) as [res|e] eqn:H.
  - destruct (in_result_for_retry res) eqn:Hr.
    + by rewrite (pass_retryable attempt None partition offset time_commit time_time
                    i res H Hr).
    + destruct (Qltb (timeleft time_commit time_time i) 1.5) eqn:Ht.
      * rewrite (pass_terminal_urgent attempt None partition offset time_commit
                   time_time i res H Hr Ht). by destruct offset.
      * by rewrite (pass_terminal_deferred attempt None partition offset time_commit
                      time_time i res H Hr Ht).
  - by rewrite (pass_raised attempt None partition offset time_commit time_time i e H).
Qed.

Lemma while_loop_no_client attempt partition offset time_commit time_time fuel nc rc :
  commits (effects (while_loop attempt None partition offset time_commit time_time
                      fuel nc rc)) = [].
Proof.
  revert nc rc. induction fuel as [|fuel IH]; intros nc rc.
  - cbn [while_loop]. by destruct (negb nc && (rc <? max_retries)%nat).
  - destruct nc; [done|].
    destruct (Nat.ltb_spec rc max_retries) as [Hlt|Hge].
    + destruct (while_loop_turn attempt None partition offset time_commit time_time
                  fuel rc Hlt) as (t & st & Hp & ->).
      cbn [effects fst]. rewrite commits_app, IH, app_nil_r.
      pose proof (pass_no_client attempt partition offset time_commit time_time rc) as Hc.
      by rewrite Hp in Hc.
    + cbn [while_loop negb andb]. by destruct (Nat.ltb_spec rc max_retries); [lia|].
Qed.

(** X9. Called without a [kafka_client] (the default), the function never
    commits an offset, whatever the mappings and the engine do: the commit
    before a retry is skipped, and the commit of the next offset fails on
    [None._commit], which near the deadline costs each mapping that is
    done a pause of 10. *)
Theorem no_client_no_commit
    (matched_mappings : list mapping_run) (partition offset : option Z)
    (time_commit : option Q) :
  commits (effects (process_mappings_async matched_mappings false partition offset
                      time_commit)) = [] ∧
  (∀ m i res o,
     attempts m i = Returns res → in_result_for_retry res = false →
     offset = Some o →
     Qltb (timeleft time_commit (clock m) i) 1.5 = true →
     pass (attempts m) None partition offset time_commit (clock m) i
     = ([Dispatch i; Log INFO; Log INFO; Log ERROR; Sleep 10], Returns (true, i))).
Proof.
  split.
  - induction matched_mappings as [|m rest IH]; [done|].
    rewrite (proj1 (process_mappings_async_cons m rest false partition offset
                      time_commit)).
    rewrite commits_app, IH, app_nil_r, process_mapping_commits.
    apply while_loop_no_client.
  - intros m i res o H Hr -> Ht.
    by rewrite (pass_terminal_urgent (attempts m) None partition (Some o) time_commit
                  (clock m) i res H Hr Ht).
Qed.

(** X10. [process_mappings_async] never raises, and makes at most
    [max_retries] dispatch attempts per mapping. *)
Theorem process_mappings_async_bounded
    (matched_mappings : list mapping_run) (has_client : bool)
    (partition offset : option Z) (time_commit : option Q) :
  outcome (process_mappings_async matched_mappings has_client partition offset
             time_commit) = Returns tt ∧
  (length (dispatches (effects (process_mappings_async matched_mappings has_client
                                  partition offset time_commit)))
   ≤ max_retries * length matched_mappings)%nat.
Proof.
  split; [apply process_mappings_async_returns|].
  induction matched_mappings as [|m rest IH]; [cbn; lia|].
  rewrite (proj1 (process_mappings_async_cons m rest has_client partition offset
                    time_commit)).
  rewrite dispatches_app, length_app.
  destruct (process_mapping_attempts (attempts m)
              (if has_client then Some (commit_raises m) else None)
              partition offset time_commit (clock m)) as (k & -> & Hk).
  rewrite length_seq. cbn [length]. lia.
Qed.

(** X11. The loop of one mapping sleeps at most 12 seconds in all: a
    second after each failing attempt, and 10 once if the commit of the
    next offset fails. *)
Theorem stream_loop_sleeps_at_most_12
    (attempt : nat → completion (option Result)) (kafka_client : option (nat → bool))
    (partition offset : option Z) (time_commit : option Q) (time_time : nat → Q) :
  (total_sleep (effects (process_mapping attempt kafka_client partition offset
                           time_commit time_time)) <= 12)%Q.
Proof.
  unfold total_sleep. rewrite process_mapping_sleeps. change max_retries with 3%nat.
  pose proof (pass_sleeps attempt kafka_client partition offset time_commit time_time)
    as Hs.
  destruct (Hs 0%nat) as [[Ho0 Hs0]|[Ho0 Hs0]];
    rewrite (while_loop_turn_on attempt kafka_client partition offset time_commit
               time_time 2 0 _ ltac:(unfold max_retries; lia) Ho0);
    cbn [effects fst snd]; rewrite sleeps_app.
  2: { rewrite while_loop_done. destruct Hs0 as [-> | ->]; by vm_compute. }
  rewrite Hs0.
  destruct (Hs 1%nat) as [[Ho1 Hs1]|[Ho1 Hs1]];
    rewrite (while_loop_turn_on attempt kafka_client partition offset time_commit
               time_time 1 1 _ ltac:(unfold max_retries; lia) Ho1);
    cbn [effects fst snd]; rewrite sleeps_app.
  2: { rewrite while_loop_done. destruct Hs1 as [-> | ->]; by vm_compute. }
  rewrite Hs1.
  destruct (Hs 2%nat) as [[Ho2 Hs2]|[Ho2 Hs2]];
    rewrite (while_loop_turn_on attempt kafka_client partition offset time_commit
               time_time 0 2 _ ltac:(unfold max_retries; lia) Ho2);
    cbn [effects fst snd]; rewrite sleeps_app.
  2: { rewrite while_loop_done. destruct Hs2 as [-> | ->]; by vm_compute. }
  rewrite Hs2. by vm_compute.
Qed.

(** ** More on the pool-based loop *)

Section PoolTaskMore.
Variable attempt : nat → completion (option Result).

Local Abbreviation try_once_ := (try_once attempt).
Local Abbreviation for_attempts_ := (for_attempts attempt).

(** A failing attempt lets the [for] loop go on. *)
Lemma try_once_failing a :
  failing (attempt a) = true →
  outcome (try_once_ a) = Returns None ∧ dispatches (effects (try_once_ a)) = [a] ∧
  sleeps (effects (try_once_ a)) = option_list (delay_after attempt a).
Proof.
  intros Hf. unfold delay_after. destruct (attempt a) as [res|e] eqn:H; cbn in Hf.
  - by rewrite (try_once_retryable attempt a res H Hf), Hf.
  - by rewrite (try_once_raised attempt a e H).
Qed.

Lemma try_once_result a :
  failing (attempt a) = false →
  ∃ res, attempt a = Returns res ∧ try_once_ a = ([Dispatch a], Returns (Some res)) ∧
         delay_after attempt a = None.
Proof.
  intros Hf. unfold delay_after. destruct (attempt a) as [res|e] eqn:H; cbn in Hf; [|done].
  exists res. by rewrite (try_once_terminal attempt a res H Hf), Hf.
Qed.

(** The loop over a list of attempt numbers, by its first attempt. *)
Lemma for_attempts_failing a rest :
  failing (attempt a) = true →
  for_attempts_ (a :: rest)
  = (effects (try_once_ a) ++ effects (for_attempts_ rest), outcome (for_attempts_ rest)).
Proof.
  intros Hf. destruct (try_once_failing a Hf) as (Ho & _ & _).
  cbn [for_attempts]. py_simpl. destruct (try_once attempt a) as [t c].
  cbn in Ho. subst c. by destruct (for_attempts attempt rest).
Qed.

Lemma for_attempts_result a rest res :
  failing (attempt a) = false → attempt a = Returns res →
  for_attempts_ (a :: rest) = ([Dispatch a], Returns res).
Proof.
  intros Hf H. destruct (try_once_result a Hf) as (res' & H' & Hp & _).
  rewrite H in H'. injection H' as <-.
  cbn [for_attempts]. py_simpl. by rewrite Hp.
Qed.

(** The loop stops at the first attempt that does not fail. *)
Lemma for_attempts_until pre a post res :
  (∀ b, b ∈ pre → failing (attempt b) = true) →
  attempt a = Returns res → in_result_for_retry res = false →
  outcome (for_attempts_ (pre ++ a :: post)) = Returns res ∧
  dispatches (effects (for_attempts_ (pre ++ a :: post))) = pre ++ [a].
Proof.
  intros Hpre H Hr. induction pre as [|b pre IH]; cbn [app].
  - rewrite (for_attempts_result a post res); [done| |done]. by rewrite H.
  - rewrite (for_attempts_failing b); [|apply Hpre; by left].
    destruct IH as [IHo IHd]; [intros c Hc; apply Hpre; by right|].
    cbn [effects outcome fst snd]. rewrite dispatches_app, IHd. split; [done|].
    by destruct (try_once_failing b (Hpre b (list_elem_of_here _ _))) as (_ & -> & _).
Qed.

(** The delays slept are those that follow the attempts made. *)
Lemma for_attempts_sleeps l :
  sleeps (effects (for_attempts_ l))
  = omap (delay_after attempt) (dispatches (effects (for_attempts_ l))).
Proof.
  induction l as [|a rest IH]; [done|].
  destruct (failing (attempt a)) eqn:Hf.
  - rewrite (for_attempts_failing a rest Hf). cbn [effects fst].
    destruct (try_once_failing a Hf) as (_ & Hd & Hs).
    rewrite sleeps_app, dispatches_app, Hd, Hs, IH. cbn.
    by destruct (delay_after attempt a).
  - destruct (try_once_result a Hf) as (res & H & _ & Hd).
    rewrite (for_attempts_result a rest res Hf H). cbn. by rewrite Hd.
Qed.
End PoolTaskMore.

(** X12. [process_single_mapping] returns the first result that is not
    retryable, None included: when attempt [i] gives it and the attempts
    before [i] raised or gave retryable results, exactly the attempts 0 to
    [i] are made and that result is returned. *)
Theorem pool_loop_returns_first_result
    (attempt : nat → completion (option Result)) (i : nat) (res : option Result) :
  (i < max_retries)%nat →
  attempt i = Returns res → in_result_for_retry res = false →
  (∀ j, (j < i)%nat → failing (attempt j) = true) →
  outcome (process_single_mapping attempt) = Returns res ∧
  dispatches (effects (process_single_mapping attempt)) = seq 0 (S i).
Proof.
  intros Hi H Hr Hall. unfold process_single_mapping.
  replace (seq 0 max_retries) with (seq 0 i ++ i :: seq (S i) (max_retries - S i)).
  - destruct (for_attempts_until attempt (seq 0 i) i (seq (S i) (max_retries - S i)) res)
      as [Ho Hd]; [|done|done|].
    { intros b Hb. apply elem_of_seq in Hb. apply Hall. lia. }
    rewrite Ho, Hd. split; [done|]. by rewrite seq_S.
  - symmetry. trans (seq 0 (i + S (max_retries - S i))); [f_equal; lia|].
    by rewrite seq_app.
Qed.

Lemma pool_loop_returns_first_result_witness :
  outcome (process_single_mapping
             (script3 (Raises OtherException) (Returns (Some TIMEOUT)) (Returns None)))
  = Returns None ∧
  dispatches (effects (process_single_mapping
             (script3 (Raises OtherException) (Returns (Some TIMEOUT)) (Returns None))))
  = seq 0 3.
Proof.
  apply (pool_loop_returns_first_result
           (script3 (Raises OtherException) (Returns (Some TIMEOUT)) (Returns None))
           2 None).
  - unfold max_retries. lia.
  - reflexivity.
  - reflexivity.
  - intros j Hj. destruct j as [|[|j]]; [reflexivity|reflexivity|lia].
Defined.

(** X13. [process_single_mapping] sleeps [2 ** a] seconds after each
    attempt [a] that returned a retryable result and not at all after an
    attempt that raised, the last attempt included; so it sleeps at most
    1 + 2 + 4 = 7 seconds in all. *)
Theorem pool_loop_delays (attempt : nat → completion (option Result)) :
  sleeps (effects (process_single_mapping attempt))
  = omap (delay_after attempt) (dispatches (effects (process_single_mapping attempt))) ∧
  (total_sleep (effects (process_single_mapping attempt)) <= 7)%Q.
Proof.
  split; [apply for_attempts_sleeps|].
  pose proof (process_single_mapping_attempts attempt) as [k Hk].
  unfold total_sleep, process_single_mapping in *.
  rewrite (for_attempts_sleeps attempt).
  destruct (dispatches (effects (for_attempts attempt (seq 0 max_retries))))
    as [|a0 [|a1 [|a2 [|a3 l]]]]; cbn in Hk; [by vm_compute| | | |discriminate].
  - simplify_eq/=. unfold delay_after.
    destruct (attempt 0%nat) as [r0|]; [destruct (in_result_for_retry r0)|];
      by vm_compute.
  - simplify_eq/=. unfold delay_after.
    destruct (attempt 0%nat) as [r0|]; [destruct (in_result_for_retry r0)|];
      (destruct (attempt 1%nat) as [r1|]; [destruct (in_result_for_retry r1)|]);
      by vm_compute.
  - simplify_eq/=. unfold delay_after.
    destruct (attempt 0%nat) as [r0|]; [destruct (in_result_for_retry r0)|];
      (destruct (attempt 1%nat) as [r1|]; [destruct (in_result_for_retry r1)|]);
      (destruct (attempt 2%nat) as [r2|]; [destruct (in_result_for_retry r2)|]);
      by vm_compute.
Qed.

(** ** More on the executors *)

(** The batches of a positive size: a partition of the mappings. *)
Lemma positive_batches_partition (max_concurrent : Z) (tasks : list task)
    (batches : list (list task)) :
  0 < max_concurrent →
  rate_limit_batches max_concurrent tasks = Returns batches →
  concat batches = tasks ∧
  Forall (λ b, (0 < length b ≤ Z.to_nat max_concurrent)%nat) batches ∧
  length batches
  = ((length tasks + Z.to_nat max_concurrent - 1) `div` Z.to_nat max_concurrent)%nat.
Proof.
  intros Hpos. unfold rate_limit_batches.
  destruct (Z.eqb_spec max_concurrent 0) as [|_]; [lia|].
  destruct (Z.ltb_spec max_concurrent 0) as [|_]; [lia|].
  intros [= <-]. set (n := Z.to_nat max_concurrent). assert (0 < n)%nat by lia.
  split; [by apply concat_slices|]. split.
  - unfold slices, range_by. apply Forall_fmap, Forall_fmap, Forall_forall.
    intros k Hk. apply elem_of_seq in Hk as [_ Hk]. cbn.
    rewrite length_take, length_drop.
    pose proof (Nat.div_mod_eq (length tasks + n - 1) n) as Hdiv.
    pose proof (Nat.mod_upper_bound (length tasks + n - 1) n) as Hmod.
    nia.
  - unfold slices, range_by. by rewrite !length_fmap, length_seq.
Qed.

(** X14. For a positive size the batches are the mappings cut in order:
    put end to end they give the mappings back, none is empty, none holds
    more than [max_concurrent] mappings, and there are
    [ceil(len / max_concurrent)] of them. *)
Theorem batches_partition_the_mappings (max_concurrent : Z) (tasks : list task)
    (batches : list (list task)) :
  0 < max_concurrent →
  rate_limit_batches max_concurrent tasks = Returns batches →
  concat batches = tasks ∧
  Forall (λ b, (0 < length b ≤ Z.to_nat max_concurrent)%nat) batches ∧
  length batches
  = ((length tasks + Z.to_nat max_concurrent - 1) `div` Z.to_nat max_concurrent)%nat.
Proof. apply positive_batches_partition. Qed.

Lemma batches_partition_witness :
  concat (slices 5 sample_tasks) = sample_tasks ∧
  Forall (λ b, (0 < length b ≤ Z.to_nat 5)%nat) (slices 5 sample_tasks) ∧
  length (slices 5 sample_tasks)
  = ((length sample_tasks + Z.to_nat 5 - 1) `div` Z.to_nat 5)%nat.
Proof.
  apply (batches_partition_the_mappings 5 sample_tasks (slices 5 sample_tasks));
    [lia|reflexivity].
Defined.

(** From the start state without batches no step can be taken. *)
Lemma no_batches_no_step workers pause s :
  rtc (exec_step workers pause) (start_state []) s → s = start_state [].
Proof.
  intros Hs. apply rtc_inv in Hs as [->|(s' & Hstep & _)]; [done|].
  inversion Hstep.
Qed.

(** X15. A batch size that is not positive dispatches nothing: with a
    negative [max_concurrent] the rate-limited executor has no batch, so
    its only state is the start, which is finished with no result, however
    many mappings it was given; with 0 the [range] raises ValueError before
    anything is submitted. *)
Theorem non_positive_batch_size_dispatches_nothing
    (max_concurrent : Z) (min_interval : Q) (tasks : list task) (s : exec_state) :
  max_concurrent ≤ 0 →
  process_mapping_with_rate_limit max_concurrent min_interval tasks s →
  max_concurrent < 0 ∧ finished s ∧ results s = [] ∧ exec_log s = [] ∧ in_flight s = 0%nat.
Proof.
  intros Hle (batches & Hb & Hs). unfold rate_limit_batches in Hb.
  destruct (Z.eqb_spec max_concurrent 0) as [|Hne]; [done|].
  destruct (Z.ltb_spec max_concurrent 0) as [Hlt|]; [|lia].
  injection Hb as <-. apply no_batches_no_step in Hs as ->. done.
Qed.

Lemma non_positive_batch_size_witness :
  -1 < 0 ∧ finished (start_state []) ∧ results (start_state []) = [] ∧
  exec_log (start_state []) = [] ∧ in_flight (start_state []) = 0%nat.
Proof.
  apply (non_positive_batch_size_dispatches_nothing (-1) 0.2 sample_tasks (start_state []));
    [lia|].
  exists []. split; [reflexivity|apply rtc_refl].
Defined.

Lemma concat_replicate_snoc {A} (k : nat) (l : list A) :
  concat (replicate k l) ++ l = concat (replicate (S k) l).
Proof.
  induction k as [|k IH]; cbn; [by rewrite app_nil_r|].
  by rewrite <- app_assoc, IH.
Qed.

Section ExecutorMore.
Variable workers : nat.
Variable pause : list effect.
Variable batches : list (list task).

Local Abbreviation reachable := (rtc (exec_step workers pause) (start_state batches)).

(** The collecting loop has paused once for every batch that is closed. *)
Lemma exec_log_pauses s :
  reachable s →
  ∃ k, exec_log s = concat (replicate k pause) ∧
       (k + length (waiting s) + match pool s with Some _ => 1 | None => 0 end
        = length batches)%nat.
Proof.
  revert s. apply (reachable_ind workers pause batches
    (λ s, ∃ k, exec_log s = concat (replicate k pause) ∧
               (k + length (waiting s) + match pool s with Some _ => 1 | None => 0 end
                = length batches)%nat)).
  - exists 0%nat. cbn. split; [done|lia].
  - intros s s' _ (k & Hl & Hk) Hstep.
    inversion Hstep; subst; cbn [exec_log waiting pool length] in *.
    + exists k. split; [done|lia].
    + exists k. split; [done|lia].
    + exists k. rewrite (future_result_returns t). cbn. rewrite app_nil_r.
      split; [done|lia].
    + exists (S k). rewrite Hl, concat_replicate_snoc. split; [done|lia].
Qed.

(** The results come batch by batch: what has been collected is, for each
    closed batch in turn, its results in some order, followed by what the
    open batch has yielded so far. *)
Lemma results_by_batch s :
  reachable s →
  ∃ closed parts,
    Forall2 (λ part b, part ≡ₚ task_result <$> b) parts closed ∧
    match pool s with
    | None => batches = closed ++ waiting s ∧ results s = concat parts
    | Some (q, run) =>
        ∃ b got, batches = closed ++ b :: waiting s ∧
                 results s = concat parts ++ got ∧
                 got ++ (task_result <$> run ++ q) ≡ₚ task_result <$> b
    end.
Proof.
  revert s. apply (reachable_ind workers pause batches
    (λ s, ∃ closed parts,
       Forall2 (λ part b, part ≡ₚ task_result <$> b) parts closed ∧
       match pool s with
       | None => batches = closed ++ waiting s ∧ results s = concat parts
       | Some (q, run) =>
           ∃ b got, batches = closed ++ b :: waiting s ∧
                    results s = concat parts ++ got ∧
                    got ++ (task_result <$> run ++ q) ≡ₚ task_result <$> b
       end)).
  - exists [], []. cbn. split; [constructor|done].
  - intros s s' _ (closed & parts & Hparts & Hpool) Hstep.
    inversion Hstep; subst; cbn [pool waiting results] in *.
    + destruct Hpool as [Hb Hr]. exists closed, parts. split; [done|].
      exists b, []. rewrite app_nil_r. done.
    + destruct Hpool as (b & got & Hb & Hr & Hp). exists closed, parts.
      split; [done|]. exists b, got. split; [done|split; [done|]].
      by rewrite <- (app_assoc run [t] q).
    + destruct Hpool as (b & got & Hb & Hr & Hp). exists closed, parts.
      split; [done|]. exists b, (got ++ [task_result t]).
      rewrite (future_result_returns t). cbn [collect fst].
      split; [done|]. split; [by rewrite Hr, app_assoc|].
      rewrite <- Hp, !fmap_app, fmap_cons, <- ?app_assoc. cbn [app].
      apply Permutation_app_head, Permutation_middle.
    + destruct Hpool as (b & got & Hb & Hr & Hp).
      exists (closed ++ [b]), (parts ++ [got]). split.
      * apply Forall2_app; [done|]. constructor; [|constructor].
        by rewrite <- Hp, app_nil_r.
      * split; [by rewrite <- app_assoc|].
        rewrite concat_app. cbn. by rewrite app_nil_r.
Qed.
End ExecutorMore.

(** X16. A finished run of the rate-limited executor with a positive
    [max_concurrent] has collected exactly one result for every mapping, in
    some order, and has slept [min_interval] once per batch, after the last
    batch too: [ceil(len / max_concurrent)] times in all. *)
Theorem rate_limit_run_is_complete
    (max_concurrent : Z) (min_interval : Q) (tasks : list task) (s : exec_state) :
  0 < max_concurrent →
  process_mapping_with_rate_limit max_concurrent min_interval tasks s →
  finished s →
  results s ≡ₚ task_result <$> tasks ∧
  exec_log s
  = replicate ((length tasks + Z.to_nat max_concurrent - 1) `div` Z.to_nat max_concurrent)
              (Sleep min_interval).
Proof.
  intros Hpos (batches & Hb & Hs) Hf.
  destruct (positive_batches_partition max_concurrent tasks batches Hpos Hb)
    as (Hc & _ & Hlen).
  split.
  - rewrite <- Hc. exact (finished_results _ _ batches s Hs Hf).
  - destruct (exec_log_pauses _ _ batches s Hs) as (k & -> & Hk).
    destruct Hf as [Hw Hp]. rewrite Hw, Hp in Hk. cbn in Hk.
    assert (k = length batches) as -> by lia. rewrite Hlen.
    generalize ((length tasks + Z.to_nat max_concurrent - 1) `div` Z.to_nat max_concurrent)%nat.
    intros n. induction n as [|n IH]; [done|]. cbn. by rewrite IH.
Qed.

Lemma rate_limit_run_witness :
  ∃ s, process_mapping_with_rate_limit 1 0.2 [failing_task; succeeding_task] s ∧
       finished s ∧
       results s ≡ₚ task_result <$> [failing_task; succeeding_task] ∧
       exec_log s
       = replicate ((length [failing_task; succeeding_task] + Z.to_nat 1 - 1)
                      `div` Z.to_nat 1)%nat
                   (Sleep 0.2).
Proof.
  destruct (run_to_the_end (Z.to_nat 1) [Sleep 0.2]
              (slices 1 [failing_task; succeeding_task])) as (s & Hs & Hf); [cbn; lia|].
  assert (Hrun : process_mapping_with_rate_limit 1 0.2 [failing_task; succeeding_task] s)
    by (eexists; split; [reflexivity|exact Hs]).
  exists s. split; [exact Hrun|]. split; [exact Hf|].
  apply (rate_limit_run_is_complete 1 0.2 [failing_task; succeeding_task] s);
    [lia|exact Hrun|exact Hf].
Defined.

(** X17. The batched executors drain one batch before they start the
    next: in every state of a run the results collected so far are the
    results of the first batch in some order, then those of the second in
    some order, and so on, and a finished run has them for every batch. *)
Theorem results_come_batch_by_batch
    (max_concurrent : Z) (min_interval : Q) (tasks : list task)
    (batches : list (list task)) (s : exec_state) :
  rate_limit_batches max_concurrent tasks = Returns batches →
  process_mapping_with_rate_limit max_concurrent min_interval tasks s →
  finished s →
  ∃ parts, results s = concat parts ∧
           Forall2 (λ part b, part ≡ₚ task_result <$> b) parts batches.
Proof.
  intros Hb (batches' & Hb' & Hs) [Hw Hp].
  rewrite Hb in Hb'. injection Hb' as <-.
  destruct (results_by_batch _ _ batches s Hs) as (closed & parts & Hparts & Hpool).
  rewrite Hp, Hw, app_nil_r in Hpool. destruct Hpool as [-> Hr].
  by exists parts.
Qed.

Lemma results_batch_by_batch_witness :
  ∃ s parts,
    process_mapping_with_rate_limit 1 0.2 [failing_task; succeeding_task] s ∧
    finished s ∧ results s = concat parts ∧
    Forall2 (λ part b, part ≡ₚ task_result <$> b) parts
      (slices 1 [failing_task; succeeding_task]).
Proof.
  destruct (run_to_the_end (Z.to_nat 1) [Sleep 0.2]
              (slices 1 [failing_task; succeeding_task])) as (s & Hs & Hf); [cbn; lia|].
  assert (Hrun : process_mapping_with_rate_limit 1 0.2 [failing_task; succeeding_task] s)
    by (eexists; split; [reflexivity|exact Hs]).
  destruct (results_come_batch_by_batch 1 0.2 [failing_task; succeeding_task]
              (slices 1 [failing_task; succeeding_task]) s eq_refl Hrun Hf)
    as (parts & Hr & Hparts).
  by exists s, parts.
Defined.

(** X18. [process_mapping_in_batches] never has more dispatch calls in
    flight than a batch holds or than a default pool has workers; a
    finished run with a positive [batch_size] has collected exactly one
    result for every mapping, and the collecting loop has logged
    nothing. *)
Theorem in_batches_run
    (default_workers : nat) (batch_size : Z) (tasks : list task) (s : exec_state) :
  process_mapping_in_batches default_workers batch_size tasks s →
  (in_flight s ≤ Nat.min default_workers (Z.to_nat batch_size))%nat ∧
  (0 < batch_size → finished s →
   results s ≡ₚ task_result <$> tasks ∧ exec_log s = []).
Proof.
  intros (batches & Hb & Hs). split.
  - apply Nat.min_glb.
    + by apply (in_flight_le_workers default_workers [] batches).
    + eapply in_flight_le_batch; [|exact Hs].
      by apply (rate_limit_batches_length batch_size tasks).
  - intros Hpos Hf.
    destruct (positive_batches_partition batch_size tasks batches Hpos Hb)
      as (Hc & _ & _).
    split.
    + rewrite <- Hc. exact (finished_results _ _ batches s Hs Hf).
    + pose proof (exec_log_pause default_workers [] batches s Hs) as Hl.
      destruct (exec_log s) as [|e lg]; [done|].
      specialize (Hl e (list_elem_of_here _ _)). by apply elem_of_nil in Hl.
Qed.

Lemma in_batches_run_witness :
  (in_flight sample_busy_state ≤ Nat.min 8 (Z.to_nat 5))%nat ∧
  (0 < 5 → finished sample_busy_state →
   results sample_busy_state ≡ₚ task_result <$> sample_tasks ∧
   exec_log sample_busy_state = []).
Proof.
  apply (in_batches_run 8 5 sample_tasks sample_busy_state).
  exists (slices 5 sample_tasks). split; [reflexivity|].
  unfold start_state, sample_busy_state. cbn.
  eapply rtc_l; [apply step_open|].
  do 5 (eapply rtc_l; [apply step_start; cbn; lia|]; cbn).
  apply rtc_refl.
Defined.

(** [starmap] over tasks that never raise. *)
Lemma starmap_returns (tasks : list task) : starmap tasks = Returns (task_result <$> tasks).
Proof.
  induction tasks as [|t rest IH]; [done|].
  cbn [starmap]. by rewrite (future_result_returns t), IH.
Qed.

(** X19. With at least one process, [process_mapping_with_multiprocessing]
    never raises and returns one result per mapping in the order of the
    mappings, not of completion: the list every finished run of
    [process_mapping_with_threads] collects in some order. *)
Theorem multiprocessing_keeps_submission_order
    (cpu_count processes : nat) (max_processes : option Z) (tasks : list task) :
  pool_processes cpu_count max_processes = Returns processes →
  process_mapping_with_multiprocessing cpu_count max_processes tasks
  = Returns (task_result <$> tasks) ∧
  (∀ default_workers max_workers s,
     process_mapping_with_threads default_workers max_workers tasks s → finished s →
     results s ≡ₚ task_result <$> tasks).
Proof.
  intros Hp. split.
  - unfold process_mapping_with_multiprocessing. rewrite Hp. apply starmap_returns.
  - intros default_workers max_workers s (workers & _ & Hs) Hf.
    pose proof (finished_results workers [] [tasks] s Hs Hf) as Hr.
    cbn in Hr. by rewrite app_nil_r in Hr.
Qed.

Lemma multiprocessing_order_witness :
  process_mapping_with_multiprocessing 4 None [failing_task; succeeding_task]
  = Returns (task_result <$> [failing_task; succeeding_task]) ∧
  (∀ default_workers max_workers s,
     process_mapping_with_threads default_workers max_workers
       [failing_task; succeeding_task] s → finished s →
     results s ≡ₚ task_result <$> [failing_task; succeeding_task]).
Proof.
  apply (multiprocessing_keeps_submission_order 4 4 None [failing_task; succeeding_task]).
  reflexivity.
Defined.

(** ** The commits of a whole event *)

(** X20. Whatever the mappings and the engine do, every commit of
    [process_mappings_async] names the given partition and either the
    current offset or the next one, and at most one commit per mapping
    names the next one. *)
Theorem commits_stay_within_next_offset
    (matched_mappings : list mapping_run) (has_client : bool)
    (partition : option Z) (o : Z) (time_commit : option Q) :
  let cs := commits (effects (process_mappings_async matched_mappings has_client
                                partition (Some o) time_commit)) in
  Forall (λ c, c = (partition, Some o) ∨ c = (partition, Some (o + 1))) cs ∧
  (length (filter (λ c, c = (partition, Some (o + 1)%Z)) cs)
   ≤ length matched_mappings)%nat.
Proof.
  cbn zeta. induction matched_mappings as [|m rest [IHf IHl]]; [by split|].
  rewrite (proj1 (process_mappings_async_cons m rest has_client partition (Some o)
                    time_commit)).
  rewrite commits_app, process_mapping_commits.
  destruct (while_loop_commits (attempts m)
              (if has_client then Some (commit_raises m) else None)
              partition (Some o) time_commit (clock m) max_retries false 0)
    as (n & tail & -> & Htail).
  assert (o ≠ o + 1) by lia.
  assert (Hrep : filter (λ c, c = (partition, Some (o + 1)))
                   (replicate n (partition, Some o)) = []).
  { induction n as [|n IHn]; [done|]. cbn [replicate].
    rewrite filter_cons_False; [done|]. intros [= ?]. lia. }
  split.
  - apply Forall_app. split; [|done]. apply Forall_app. split.
    + apply Forall_replicate. by left.
    + destruct Htail as [->|(o' & [= <-] & ->)]; [done|]. constructor; [by right|done].
  - rewrite !filter_app, !length_app, Hrep. cbn [length].
    destruct Htail as [->|(o' & [= <-] & ->)]; [cbn; lia|].
    rewrite filter_cons_True by done. cbn. lia.
Qed.

(** The commits of the loop of a mapping whose first attempt gave a
    retryable result start with the current offset. *)
Lemma retry_first_commits_current_offset
    (attempt : nat → completion (option Result)) (raises : nat → bool)
    (partition offset : option Z) (time_commit : option Q) (time_time : nat → Q) res :
  attempt 0%nat = Returns res → in_result_for_retry res = true →
  ∃ rest,
    commits (effects (process_mapping attempt (Some raises) partition offset
                        time_commit time_time))
    = (partition, offset) :: rest.
Proof.
  intros H Hr. rewrite process_mapping_commits. change max_retries with 3%nat.
  rewrite (while_loop_retry_turn attempt (Some raises) partition offset time_commit
             time_time 2 0 res); [|unfold max_retries; lia|done|done].
  cbn [effects fst]. rewrite commits_app.
  rewrite (pass_retryable attempt (Some raises) partition offset time_commit time_time
             0 res H Hr).
  destruct (raises 0%nat); cbn; eauto.
Qed.

(** X21. The committed offset can go back within one event: when, close
    to the deadline, a mapping is done at its first attempt and the next
    mapping then meets a retryable result, the next offset is committed
    first and the current offset after it. *)
Theorem offset_regresses_across_mappings
    (m1 m2 : mapping_run) (rest : list mapping_run)
    (partition : option Z) (o : Z) (time_commit : option Q) (r1 r2 : option Result) :
  attempts m1 0%nat = Returns r1 → in_result_for_retry r1 = false →
  Qltb (timeleft time_commit (clock m1) 0) 1.5 = true →
  attempts m2 0%nat = Returns r2 → in_result_for_retry r2 = true →
  ∃ later,
    commits (effects (process_mappings_async (m1 :: m2 :: rest) true partition (Some o)
                        time_commit))
    = (partition, Some (o + 1)) :: (partition, Some o) :: later.
Proof.
  intros H1 Hr1 Ht H2 Hr2.
  rewrite (proj1 (process_mappings_async_cons m1 (m2 :: rest) true partition (Some o)
                    time_commit)).
  rewrite (proj1 (process_mappings_async_cons m2 rest true partition (Some o)
                    time_commit)).
  rewrite !commits_app.
  rewrite (terminal_commit_rule (attempts m1) (commit_raises m1) partition o time_commit
             (clock m1) r1 H1 Hr1), Ht.
  destruct (retry_first_commits_current_offset (attempts m2) (commit_raises m2) partition
              (Some o) time_commit (clock m2) r2 H2 Hr2) as [later ->].
  cbn. eauto.
Qed.

Lemma offset_regresses_witness :
  ∃ later,
    commits (effects (process_mappings_async
                        [ {| attempts := λ _, Returns (Some SUCCEED);
                             commit_raises := λ _, false; clock := λ _, 0%Q |};
                          {| attempts := λ _, Returns (Some TIMEOUT);
                             commit_raises := λ _, false; clock := λ _, 0%Q |} ]
                        true (Some 0) (Some 42) None))
    = (Some 0, Some (42 + 1)) :: (Some 0, Some 42) :: later.
Proof.
  apply (offset_regresses_across_mappings
           {| attempts := λ _, Returns (Some SUCCEED);
              commit_raises := λ _, false; clock := λ _, 0%Q |}
           {| attempts := λ _, Returns (Some TIMEOUT);
              commit_raises := λ _, false; clock := λ _, 0%Q |}
           [] (Some 0) 42 None (Some SUCCEED) (Some TIMEOUT)); reflexivity.
Defined.

(** ** A playbook id that does not resolve *)

(** C5, as stated, fails when the tenant settings lack ["tenant_id"]:
    line 101 subscripts [tenant_info["tenant_id"]] as the default of
    [event.get("tenant", ...)], so the call raises KeyError before the id
    is looked at, although the event names its tenant and no playbook id
    resolves; INVALID_EVENT is not returned. *)
Lemma unresolved_playbook_id_raises_KeyError :
  let run := run_playbook (always_status 200) sample_event_no_playbook
               listed_tenant_info VNone VNone VNone in
  sample_event_no_playbook !! "tenant" = Some (VStr "t1") ∧
  playbook_id_unresolved sample_event_no_playbook VNone = true ∧
  outcome run.2 = Raises (KeyError "tenant_id") ∧
  outcome run.2 ≠ Returns (Some INVALID_EVENT).
Proof.
  cbn zeta. split; [vm_compute; reflexivity|]. split; [vm_compute; reflexivity|].
  assert (H : outcome (run_playbook (always_status 200) sample_event_no_playbook
                         listed_tenant_info VNone VNone VNone).2
              = Raises (KeyError "tenant_id")) by (vm_compute; reflexivity).
  split; [exact H|]. rewrite H. discriminate.
Qed.

(** C5, amended. When no playbook id resolves (the [playbook_id] argument
    is false and [event["data"]] carries none), [run_playbook] sends no
    request and leaves the event as it was, whatever the tenant settings;
    and it returns INVALID_EVENT provided the tenant settings hold
    ["tenant_id"] and ["engine_api_uri"], the two keys that lines 101-102
    subscript before the id is resolved. *)
Theorem run_playbook_unresolved_sends_nothing
    (net : request → http_outcome) (event tenant_info : gmap string value)
    (playbook_id config_id extra_info : value) :
  playbook_id_unresolved event playbook_id = true →
  let run := run_playbook net event tenant_info playbook_id config_id extra_info in
  posts (effects run.2) = [] ∧
  run.1 = event ∧
  (is_Some (tenant_info !! "tenant_id") → is_Some (tenant_info !! "engine_api_uri") →
   outcome run.2 = Returns (Some INVALID_EVENT)).
Proof.
  intros Hun. cbn zeta.
  destruct (tenant_info !! "tenant_id") as [dflt|] eqn:Ht.
  - destruct (tenant_info !! "engine_api_uri") as [base|] eqn:Hb.
    + destruct (run_playbook_unresolved_is_invalid_event net event tenant_info
                  playbook_id config_id extra_info) as (Ho & Hp & He);
        [by rewrite Ht|by rewrite Hb|exact Hun|].
      split; [exact Hp|]. split; [exact He|]. intros _ _. exact Ho.
    + unfold run_playbook, subscript. rewrite Ht, Hb. cbn.
      split; [done|]. split; [done|]. intros _ [v Hv]. discriminate.
  - unfold run_playbook, subscript. rewrite Ht. cbn.
    split; [done|]. split; [done|]. intros [v Hv]. discriminate.
Qed.

Lemma run_playbook_unresolved_sends_nothing_witness :
  posts (effects (run_playbook (always_status 200) sample_event_no_playbook
                    sample_tenant_info VNone VNone VNone).2) = [] ∧
  (run_playbook (always_status 200) sample_event_no_playbook sample_tenant_info
     VNone VNone VNone).1 = sample_event_no_playbook ∧
  outcome (run_playbook (always_status 200) sample_event_no_playbook sample_tenant_info
             VNone VNone VNone).2 = Returns (Some INVALID_EVENT).
Proof.
  destruct (run_playbook_unresolved_sends_nothing (always_status 200)
              sample_event_no_playbook sample_tenant_info VNone VNone VNone)
    as (Hp & He & Ho); [vm_compute; reflexivity|].
  split; [exact Hp|]. split; [exact He|].
  apply Ho.
  - exists (VStr "t1"). vm_compute. reflexivity.
  - exists (VStr "http://engine"). vm_compute. reflexivity.
Defined.
